(** * ccheck: the contamination checker of the mapping iterative assembler

    A shallow embedding of [src/ccheck.cc] and the properties of its
    classification core.

    Conventions of the embedding.
    - A C [char] is an [ascii]; a NUL-terminated [const char*] is a [string]
      read through [peek], which yields the terminator at the end.  A cursor
      that is advanced beyond its terminator stays there (the C program would
      read out of bounds at that point).
    - An [int] is a [Z].  The counters of the program (assembly coordinates,
      votes, fragment counts) are bounded by the lengths of its inputs, so
      no wrap-around is modelled for them; where a number comes from outside
      ([atoi]) or a bound is what a property is about, the range of [int] is
      written out.
    - A [double] is a binary64 float of the Standard Library, and every
      operation on doubles is the one of the source, in its order.
    - [std::map<int, Dp>] is a [gmap Z Dp], [std::map<std::string, ...>] a
      [gmap string ...].
    - The headers [myers_align.h] and [mia.h] are not part of the sources at
      hand; the two functions that the checker takes from them are the fields
      of the interface [Ambiguity]. *)

From Stdlib Require Import ZArith Ascii String Lia.
From Stdlib Require PrimFloat Uint63.
From stdpp Require Import base decidable option list gmap strings fin_maps.

Local Open Scope char_scope.
Local Open Scope Z_scope.

(** ** Characters and C strings *)

Definition NUL : ascii := zero.
Definition GAP : ascii := "-".

(** [a == b] and [a != b] on characters. *)
Definition ceq (a b : ascii) : bool := Ascii.eqb a b.
Definition cne (a b : ascii) : bool := negb (Ascii.eqb a b).

(** The unsigned value of a character. *)
Definition char_code (a : ascii) : Z := Z.of_N (N_of_ascii a).
Definition char_of_code (z : Z) : ascii := ascii_of_N (Z.to_N (z mod 256)).

(** [x & ~32] : the character with bit 5 cleared. *)
Definition clear32 (x : ascii) : ascii :=
  char_of_code (Z.land (char_code x) (Z.lnot 32)).

(** [toupper] of the C locale. *)
Definition toupper (x : ascii) : ascii :=
  let n := char_code x in
  if (97 <=? n) && (n <=? 122) then char_of_code (n - 32) else x.

(** [*p] *)
Definition peek (p : string) : ascii :=
  match p with
  | EmptyString => NUL
  | String c _ => c
  end.

(** [p + 1] *)
Definition next (p : string) : string :=
  match p with
  | EmptyString => EmptyString
  | String _ t => t
  end.

(** [p + n] *)
Fixpoint advance (n : nat) (p : string) : string :=
  match n with
  | O => p
  | S k => advance k (next p)
  end.

(** [s.substr( 0, n )] with [n] an [int] converted to [size_t]: a negative [n]
    becomes a huge count and the whole string is returned. *)
Fixpoint prefix_n (n : nat) (s : string) : string :=
  match n, s with
  | S k, String c t => String c (prefix_n k t)
  | _, _ => EmptyString
  end.

Definition substr0 (n : Z) (s : string) : string :=
  if n <? 0 then s else prefix_n (Z.to_nat n) s.

(** ** The ambiguity codes (from the missing headers) *)

Class Ambiguity := {
  char_to_bitmap : ascii -> Z ;
  compatible : ascii -> ascii -> bool
}.

(** Modelled from the spec: [char_to_bitmap] and [compatible] of
    [myers_align.h], which is not among the sources.  A symbol stands for a
    set of bases, one bit per base; IUPAC ambiguity codes stand for several,
    [N] for all four, anything else for none; case does not matter.  Two
    symbols are compatible when their bitmasks share a base. *)
Definition iupac_bitmap (x : ascii) : Z :=
  match clear32 x with
  | "A" => 1 | "C" => 2 | "G" => 4 | "T" => 8 | "U" => 8
  | "M" => 3 | "R" => 5 | "W" => 9 | "S" => 6 | "Y" => 10 | "K" => 12
  | "V" => 7 | "H" => 11 | "D" => 13 | "B" => 14 | "N" => 15
  | _ => 0
  end.

#[export] Instance iupac : Ambiguity := {|
  char_to_bitmap := iupac_bitmap ;
  compatible x y := negb (Z.land (iupac_bitmap x) (iupac_bitmap y) =? 0)
|}.

(** ** Diagnostic positions *)

Inductive Strength := weak | effective | strong.

(** The enumerators as integers, for [>] and [>=] on them. *)
Definition Strength_rank (s : Strength) : Z :=
  match s with weak => 0 | effective => 1 | strong => 2 end.

#[export] Instance Strength_eq_dec : EqDecision Strength.
Proof. solve_decision. Defined.

Record Dp := mkDp {
  consensus : ascii ;
  assembly : ascii ;
  contaminant : ascii ;
  strength : Strength
}.

(** A value-initialised [Dp], as [operator[]] of [std::map] creates it. *)
Definition Dp_zero : Dp := mkDp NUL NUL NUL weak.

Abbreviation dp_list := (gmap Z Dp).

Section Checker.
Context `{Ambiguity}.

Definition is_strongly_diagnostic (aln1 aln2 : ascii) : bool :=
  cne aln1 GAP && cne aln2 GAP && negb (compatible aln1 aln2).

Definition is_weakly_diagnostic (aln1 aln2 : ascii) : bool :=
  cne aln1 GAP && cne aln2 GAP && cne (toupper aln1) (toupper aln2).

Definition is_transversion (a b : ascii) : bool :=
  let u := clear32 a in
  let v := clear32 b in
  match u with
  | "A" => cne v "G"
  | "C" => cne v "T"
  | "G" => cne v "A"
  | "T" | "U" => cne v "C"
  | _ => false
  end.

(** The loop that opens [mk_dp_list] and both passes: move along the global
    alignment until the assembly coordinate [index] equals [target]. *)
Fixpoint seek (target : Z) (aln1 aln2 : string) (index : Z) : Z * string * string :=
  match aln1, aln2 with
  | String c1 t1, String c2 t2 =>
      if bool_decide (index ≠ target) && cne c1 NUL && cne c2 NUL
      then seek target t1 t2 (if cne c2 GAP then index + 1 else index)
      else (index, aln1, aln2)
  | _, _ => (index, aln1, aln2)
  end.

(** [l[index].consensus = ..., .assembly = ..., .strength = ...] *)
Definition dp_assign (index : Z) (c1 c2 : ascii) (l : dp_list) : dp_list :=
  let old := default Dp_zero (l !! index) in
  <[ index := mkDp c1 c2 (contaminant old)
                (if is_strongly_diagnostic c1 c2 then strong else weak) ]> l.

(** The second loop of [mk_dp_list]. *)
Fixpoint collect (span_to : Z) (aln1 aln2 : string) (index : Z) (l : dp_list) : dp_list :=
  match aln1, aln2 with
  | String c1 t1, String c2 t2 =>
      if bool_decide (index ≠ span_to) && cne c1 NUL && cne c2 NUL
      then
        let l' := if is_weakly_diagnostic c1 c2 then dp_assign index c1 c2 l else l in
        collect span_to t1 t2 (if cne c2 GAP then index + 1 else index) l'
      else l
  | _, _ => l
  end.

Definition mk_dp_list (aln1 aln2 : string) (span_from span_to : Z) : dp_list :=
  let '(index, p1, p2) := seek span_from aln1 aln2 0 in
  collect span_to p1 p2 index ∅.

(** The number of entries between [l.lower_bound( s->start )] and
    [l.lower_bound( s->end + 1 )]. *)
Definition overlapped_diagnostic_positions (l : dp_list) (s_start s_end : Z) : Z :=
  Z.of_nat (size (filter (λ kv : Z * Dp, s_start ≤ kv.1 ∧ kv.1 < s_end + 1) l)).

Fixpoint lift_over_at (p : Z) (aln1 aln2 : string) (s e : Z) : string :=
  match aln1, aln2 with
  | String c1 t1, String c2 t2 =>
      if (p <? e) && cne c1 NUL && cne c2 NUL
      then
        let r := lift_over_at (if cne c2 GAP then p + 1 else p) t1 t2 s e in
        if cne c1 GAP && (s <=? p) then String c1 r else r
      else EmptyString
  | _, _ => EmptyString
  end.

Definition lift_over (aln1 aln2 : string) (s e : Z) : string :=
  lift_over_at 0 aln1 aln2 s e.

Definition consistent (adna : bool) (x y : ascii) : bool :=
  let x_ := if ceq x "G" then "R" else if ceq x "C" then "Y" else
            if ceq x "g" then "r" else if ceq x "c" then "y" else x in
  ceq x GAP || ceq y GAP ||
  negb (Z.land (char_to_bitmap (if adna then x_ else x)) (char_to_bitmap y) =? 0).

End Checker.

(** ** Fragment classes *)

Inductive whatsit := unknown | clean | dirt | conflict | nonsense | maxwhatsits.

#[export] Instance whatsit_eq_dec : EqDecision whatsit.
Proof. solve_decision. Defined.

(** The enumerator as an index into [summary]. *)
Definition whatsit_index (k : whatsit) : nat :=
  match k with
  | unknown => 0 | clean => 1 | dirt => 2 | conflict => 3 | nonsense => 4
  | maxwhatsits => 5
  end.

Definition merge_whatsit (a b : whatsit) : whatsit :=
  if bool_decide (a = b) then a
  else if bool_decide (a = unknown) then b
  else if bool_decide (b = unknown) then a
  else if bool_decide (a = nonsense) || bool_decide (b = nonsense) then nonsense
  else conflict.

(** [klass] and [votes] are passed by reference; the pair is their value
    on return.  [votes] is an [int]: the increment is the one of [Z] as long
    as the counter is below [INT_MAX]. *)
Definition update_class (klass : whatsit) (votes : Z) (maybe_clean maybe_dirt : bool)
  : whatsit * Z :=
  let klass := if maybe_clean && negb maybe_dirt && bool_decide (klass = unknown)
               then clean else klass in
  let klass := if maybe_clean && negb maybe_dirt && bool_decide (klass = dirt)
               then conflict else klass in
  let klass := if negb maybe_clean && maybe_dirt && bool_decide (klass = unknown)
               then dirt else klass in
  let klass := if negb maybe_clean && maybe_dirt && bool_decide (klass = clean)
               then conflict else klass in
  let klass := if negb maybe_clean && negb maybe_dirt then nonsense else klass in
  (klass, if negb (eqb maybe_clean maybe_dirt) then votes + 1 else votes).

Fixpoint sanity_check_sequence (s : string) : bool :=
  match s with
  | EmptyString => true
  | String c t =>
      if ceq c NUL then true
      else if existsb (ceq (toupper c)) (list_ascii_of_string "ACGTBDHVMKYRSWUN")
      then sanity_check_sequence t
      else false
  end.

(** [fixup_name] cuts a trailing [_b], [_f], [,_b] or [,_f] off a name. *)
Definition fixup_name (id : string) : string :=
  let cs := list_ascii_of_string id in
  match rev cs with
  | q1 :: q2 :: q3 :: front =>
      if (3 <? Z.of_nat (length cs)) && (ceq q1 "b" || ceq q1 "f") && ceq q2 "_"
      then if ceq q3 "," then string_of_list_ascii (rev front)
           else string_of_list_ascii (rev (q3 :: front))
      else id
  | _ => id
  end.

(** ** Fragments and their cached pairwise alignments *)

(** The fields of [AlnSeq] that the checker reads. *)
Record AlnSeq := mkAlnSeq {
  id : string ;
  segment : ascii ;
  a_start : Z ;
  a_end : Z ;
  seq : string
}.

Record cached_pwaln := mkPwaln {
  pw_start : Z ;
  ref_seq : string ;
  frag_seq : string
}.

(** The classification of one fragment: the strong-only tally
    ([klass], [votes]) and the tally over all remaining positions
    ([klass2], [votes2]). *)
Record tally := mkTally {
  klass : whatsit ;
  votes : Z ;
  klass2 : whatsit ;
  votes2 : Z
}.

Abbreviation Bfrags := (gmap string (whatsit * Z)).

(** ** Walking a fragment along the global alignment *)

(** [do { a = a + 1 ; b = b + 1 ; } while( *a == '-' )] *)
Fixpoint skip_gaps (a b : string) : string * string :=
  match a with
  | EmptyString => (EmptyString, next b)
  | String _ t => if ceq (peek t) GAP then skip_gaps t (next b) else (t, next b)
  end.

Definition is_empty (s : string) : bool :=
  match s with EmptyString => true | _ => false end.

(** The loop that both passes run over one fragment.  [visit] is what the
    pass does at a weakly diagnostic column; it is given the assembly
    coordinate, [*in_frag_v_ref] and [*in_frag_v_ass]. *)
Fixpoint walk {St : Type} (visit : Z -> ascii -> ascii -> St -> St) (s_end : Z)
    (paln1 paln2 : string) (ass_pos : Z)
    (in_ref in_ass in_frag_v_ass in_frag_v_ref : string) (st : St) : St :=
  match paln1, paln2 with
  | String c1 t1, String c2 t2 =>
      if bool_decide (ass_pos ≠ s_end + 1) && cne c1 NUL && cne c2 NUL
         && negb (is_empty in_ref) && cne (peek in_ass) NUL
         && cne (peek in_frag_v_ass) NUL && cne (peek in_frag_v_ref) NUL
      then
        let st' := if is_weakly_diagnostic c1 c2
                   then visit ass_pos (peek in_frag_v_ref) (peek in_frag_v_ass) st
                   else st in
        let '(in_ref', in_frag_v_ref') :=
          if cne c1 GAP then skip_gaps in_ref in_frag_v_ref
          else (in_ref, in_frag_v_ref) in
        let '(in_ass', in_frag_v_ass') :=
          if cne c2 GAP then skip_gaps in_ass in_frag_v_ass
          else (in_ass, in_frag_v_ass) in
        walk visit s_end t1 t2 (if cne c2 GAP then ass_pos + 1 else ass_pos)
             in_ref' in_ass' in_frag_v_ass' in_frag_v_ref' st'
      else st
  | _, _ => st
  end.

Section Passes.
Context `{Ambiguity}.
Variable adna : bool.
Variables aln_con aln_ass : string.
(** [maln->ref->seq] *)
Variable assembly_seq : string.

(** *** Pass one *)

Definition pass1_visit (ass_pos : Z) (frag_v_ref frag_v_ass : ascii) (l : dp_list)
  : dp_list :=
  match l !! ass_pos with
  | None => l
  | Some d =>
      if cne frag_v_ref frag_v_ass then l
      else
        let maybe_clean := consistent adna (assembly d) frag_v_ass in
        let maybe_dirt := consistent adna (consensus d) frag_v_ref in
        if negb maybe_clean && maybe_dirt && bool_decide (strength d = weak)
        then <[ ass_pos := mkDp (consensus d) (assembly d) frag_v_ref effective ]> l
        else l
  end.

(** One fragment of a pass: [extra] is the padding of the lifted window
    ([end + 2] in pass one, [end + 1] in pass two).  The string [the_ass]
    that each pass builds first, for its messages only, is not part of the
    walk; it can be built for a fragment that lies in the assembly, and the
    program ends with [std::length_error] when [end - start + 1] is
    negative. *)
Definition walk_fragment {St : Type} (visit : Z -> ascii -> ascii -> St -> St)
    (extra : Z) (s : AlnSeq) (pw : cached_pwaln) (st : St) : St :=
  let lifted := lift_over aln_con aln_ass (a_start s) (a_end s + extra) in
  let '(ass_pos, paln1, paln2) := seek (a_start s) aln_con aln_ass 0 in
  let in_ref := (substr0 (pw_start pw) lifted ++ ref_seq pw)%string in
  let in_ass := advance (Z.to_nat (a_start s)) assembly_seq in
  walk visit (a_end s) paln1 paln2 ass_pos in_ref in_ass (seq s) (frag_seq pw) st.

Definition pass1_fragment (l : dp_list) (f : AlnSeq * cached_pwaln) : dp_list :=
  walk_fragment pass1_visit 2 f.1 f.2 l.

Definition pass1 (frags : list (AlnSeq * cached_pwaln)) (l : dp_list) : dp_list :=
  fold_left pass1_fragment frags l.

(** The loop after pass one: erase every entry that is still weak. *)
Definition prune_step (l : dp_list) (kv : Z * Dp) : dp_list :=
  if bool_decide (strength kv.2 = weak) then delete kv.1 l else l.

Definition prune (l : dp_list) : dp_list :=
  fold_left prune_step (map_to_list l) l.

(** *** Pass two *)

Definition tally_zero : tally := mkTally unknown 0 unknown 0.

Definition pass2_visit (l : dp_list) (ass_pos : Z) (frag_v_ref frag_v_ass : ascii)
    (t : tally) : tally :=
  match l !! ass_pos with
  | None => t
  | Some d =>
      if cne frag_v_ref frag_v_ass then t
      else
        let maybe_clean := consistent adna (assembly d) frag_v_ass in
        let maybe_dirt := consistent adna (consensus d) frag_v_ref in
        let '(k2, v2) := update_class (klass2 t) (votes2 t) maybe_clean
                           (maybe_dirt && negb maybe_clean) in
        let '(k, v) := if bool_decide (strength d = strong)
                       then update_class (klass t) (votes t) maybe_clean maybe_dirt
                       else (klass t, votes t) in
        mkTally k v k2 v2
  end.

Definition classify (min_diag_posns : Z) (l : dp_list) (s : AlnSeq) (pw : cached_pwaln)
  : tally :=
  if overlapped_diagnostic_positions l (a_start s) (a_end s) <? min_diag_posns
  then tally_zero
  else walk_fragment (pass2_visit l) 1 s pw tally_zero.

End Passes.

(** ** Front and back halves, and the summaries *)

Record counts := mkCounts {
  bfrags : Bfrags ;
  bfrags2 : Bfrags ;
  summary : list Z ;
  summary2 : list Z
}.

Definition counts_zero : counts := mkCounts ∅ ∅ [0; 0; 0; 0; 0] [0; 0; 0; 0; 0].

(** [case 'f']: [i] and [i2] are what [bfrags.find] and [bfrags2.find] gave
    for the name of the fragment.  Both branches read the record behind [i].
    When [i2] is found and [i] is not, the program dereferences
    [bfrags.end()]; the model leaves the tally as it is there (the two maps
    always hold the same names, see [count_fragment]). *)
Definition merge_front (t : tally) (i i2 : option (whatsit * Z)) : tally :=
  let '(k, v) := match i with
                 | None => (klass t, votes t)
                 | Some b => (merge_whatsit (klass t) b.1, votes t + b.2)
                 end in
  let '(k2, v2) := match i2, i with
                   | Some _, Some b => (merge_whatsit (klass2 t) b.1, votes2 t + b.2)
                   | _, _ => (klass2 t, votes2 t)
                   end in
  mkTally k v k2 v2.

(** [summary[klass]++ ; summary2[klass2]++ ;] *)
Definition count_in (t : tally) (c : counts) : counts :=
  mkCounts (bfrags c) (bfrags2 c)
           (alter Z.succ (whatsit_index (klass t)) (summary c))
           (alter Z.succ (whatsit_index (klass2 t)) (summary2 c)).

(** The [switch] on the segment of a classified fragment. *)
Definition count_fragment (s : AlnSeq) (t : tally) (c : counts) : counts :=
  let i := bfrags c !! id s in
  let i2 := bfrags2 c !! id s in
  if ceq (segment s) "b" then
    mkCounts (<[ id s := (klass t, votes t) ]> (bfrags c))
             (<[ id s := (klass2 t, votes2 t) ]> (bfrags2 c))
             (summary c) (summary2 c)
  else if ceq (segment s) "f" then count_in (merge_front t i i2) c
  else if ceq (segment s) "a" then count_in t c
  else c.

(** ** One input file *)

Record options := mkOptions {
  adna : bool ;
  really : bool ;
  min_diag_posns : Z ;
  span_from : Z ;
  span_to : Z
}.

Definition INT_MAX : Z := 2147483647.

Definition default_options : options := mkOptions false false 1 0 INT_MAX.

(** How the body of the loop over the input files ends: with [return 1], or
    at its end with the index and the two summaries that are printed. *)
Inductive outcome :=
  | Exit (status : Z)
  | Report (l : dp_list) (summary summary2 : list Z).

Section File.
Context `{Ambiguity}.
Variable opts : options.
(** [hum_ref.seq] and [maln->ref->seq] *)
Variables contaminant_seq assembly_seq : string.

(** [i->second.strength > weak], counted over the index. *)
Definition num_strong (l : dp_list) : Z :=
  Z.of_nat (size (filter (λ kv : Z * Dp, 0 < Strength_rank (strength kv.2)) l)).

Definition fixup (f : AlnSeq * cached_pwaln) : AlnSeq * cached_pwaln :=
  (mkAlnSeq (fixup_name (id f.1)) (segment f.1) (a_start f.1) (a_end f.1) (seq f.1), f.2).

Definition pass2_fragment (aln_con aln_ass : string) (l : dp_list) (c : counts)
    (f : AlnSeq * cached_pwaln) : counts :=
  count_fragment f.1
    (classify (adna opts) aln_con aln_ass assembly_seq (min_diag_posns opts) l f.1 f.2) c.

Definition pass2 (aln_con aln_ass : string) (l : dp_list)
    (frags : list (AlnSeq * cached_pwaln)) : counts :=
  fold_left (pass2_fragment aln_con aln_ass l) frags counts_zero.

(** Both passes over an index that passed the safety check. *)
Definition classify_all (aln_con aln_ass : string) (l : dp_list)
    (frags : list (AlnSeq * cached_pwaln)) : outcome :=
  let frags := map fixup frags in
  let l := prune (pass1 (adna opts) aln_con aln_ass assembly_seq frags l) in
  let c := pass2 aln_con aln_ass l frags in
  Report l (summary c) (summary2 c).

(** [global] is what [myers_diff] returned: the two aligned strings, or
    nothing when it gave [UINT_MAX]; every fragment comes with the pairwise
    alignment that the mia aligner made for it. *)
Definition check_file (global : option (string * string))
    (frags : list (AlnSeq * cached_pwaln)) : outcome :=
  if negb (sanity_check_sequence contaminant_seq)
     || negb (sanity_check_sequence assembly_seq) then Exit 1
  else
    match global with
    | None => Exit 1
    | Some (aln_con, aln_ass) =>
        let l := mk_dp_list aln_con aln_ass (span_from opts) (span_to opts) in
        if (num_strong l <? 40) && negb (really opts) then Exit 1
        else classify_all aln_con aln_ass l frags
    end.

End File.

(** ** The read and its window, as the aligner gets them *)

(** The characters of a C string: those before its terminator. *)
Fixpoint c_str (s : string) : string :=
  match s with
  | EmptyString => EmptyString
  | String c t => if ceq c NUL then EmptyString else String c (c_str t)
  end.

(** The loop over [ref_for_mia]: A, C, G, T in capitals, [N] for
    everything else. *)
Definition mia_symbol (c : ascii) : ascii :=
  let u := toupper c in
  if ceq u "A" || ceq u "C" || ceq u "G" || ceq u "T" then u else "N".

Fixpoint normalize_for_mia (lifted : string) : string :=
  match lifted with
  | EmptyString => EmptyString
  | String c t => String (mia_symbol c) (normalize_for_mia t)
  end.

(** [the_read]: the bases of the [seq] of a fragment without its gaps, each
    followed by the insertion that its [ins] holds at the same column
    ([None] for a null pointer).  [i] is the column of the first character. *)
Fixpoint the_read_from (i : nat) (seq : string) (ins : nat -> option string) : string :=
  match seq with
  | EmptyString => EmptyString
  | String nt t =>
      if ceq nt NUL then EmptyString
      else
        let rest := the_read_from (S i) t ins in
        let tail := match ins i with
                    | Some inserted => (c_str inserted ++ rest)%string
                    | None => rest
                    end in
        if cne nt GAP then String nt tail else tail
  end.

Definition the_read (seq : string) (ins : nat -> option string) : string :=
  the_read_from 0 seq ins.

(** ** Looking for a later assembly file *)

Definition isdigit (c : ascii) : bool :=
  (48 <=? char_code c) && (char_code c <=? 57).

(** [s.rfind( ch )] *)
Fixpoint rfind (ch : ascii) (s : string) : option nat :=
  match s with
  | EmptyString => None
  | String c t =>
      match rfind ch t with
      | Some k => Some (S k)
      | None => if ceq c ch then Some O else None
      end
  end.

(** The scan of [n1] over the digits behind [base], and whether it reaches
    the terminator. *)
Fixpoint all_digits (s : string) : bool :=
  match s with
  | EmptyString => true
  | String c t => if ceq c NUL then true else isdigit c && all_digits t
  end.

(** A value brought into the range of [int] by keeping its low 32 bits. *)
Definition wrap_int (z : Z) : Z := (z + 2 ^ 31) mod 2 ^ 32 - 2 ^ 31.

Definition LONG_MAX : Z := 2 ^ 63 - 1.

(** The decimal value of the digits at the head of a string. *)
Fixpoint decimal_from (acc : Z) (s : string) : Z :=
  match s with
  | EmptyString => acc
  | String c t =>
      if isdigit c then decimal_from (10 * acc + (char_code c - 48)) t else acc
  end.

Definition decimal (s : string) : Z := decimal_from 0 s.

(** [atoi] on a string of digits.  The language leaves the result open
    for a number that is no [int]; the C library converts with [strtol],
    which stops at [LONG_MAX], and hands back the low 32 bits, and so does
    the model. *)
Definition atoi (s : string) : Z := wrap_int (Z.min (decimal s) LONG_MAX).

(** The loop that takes the digits off the end of [base]. *)
Fixpoint drop_digits (reversed : list ascii) : list ascii :=
  match reversed with
  | c :: front => if isdigit c then drop_digits front else reversed
  | [] => []
  end.

Definition strip_trailing_digits (base : string) : string :=
  string_of_list_ascii (rev (drop_digits (rev (list_ascii_of_string base)))).

(** The number that a directory entry carries behind [base], if the entry
    is [base] followed by digits only. *)
Definition maln_number (base name : string) : option Z :=
  if (String.length base <? String.length name)%nat
     && String.eqb base (prefix_n (String.length base) name)
  then
    let n2 := advance (String.length base) name in
    if all_digits n2 then Some (atoi n2) else None
  else None.

(** One turn of the loop over the directory: [num] and [fn]. *)
Definition maln_step (p : option nat) (dir base : string) (st : Z * string)
    (d_name : string) : Z * string :=
  let name := c_str d_name in
  match maln_number base name with
  | Some n =>
      if st.1 <? n
      then (n, match p with
               | None => name
               | Some _ => (dir ++ "/" ++ name)%string
               end)
      else st
  | None => st
  end.

(** [listing] is what the directory of [fn] holds, in the order of
    [readdir], or nothing when [opendir] fails: the loop then reads through a
    null pointer and the program ends there, with no name. *)
Definition find_maln (fn : string) (listing : option (list string)) : option string :=
  let p := rfind "/" fn in
  let dir := match p with None => "."%string | Some k => prefix_n k fn end in
  let base := strip_trailing_digits
                (match p with None => fn | Some k => advance (S k) fn end) in
  match listing with
  | None => None
  | Some entries => Some (fold_left (maln_step p dir base) entries (1, fn)).2
  end.

(** ** The summary that is printed *)

Section Summary.
Import PrimFloat.

(** What [print_results] writes, piece by piece: [%d], literal text, [%*s]
    and [%.1f]. *)
Inductive printed :=
  | PInt (i : Z)
  | PText (s : string)
  | PPadded (width : Z) (s : string)
  | PFixed1 (x : float).

Definition TAB : string := String "009" "".
Definition NL : string := String "010" "".

(** [label] *)
Definition label (k : whatsit) : string :=
  match k with
  | unknown => "unclassified"
  | clean => "clean"
  | dirt => "polluting"
  | conflict => "conflicting"
  | nonsense => "nonsensical"
  | maxwhatsits => "LB"
  end.

(** The classes from [unknown] up to [maxwhatsits], that one left out. *)
Definition classes : list whatsit := [unknown; clean; dirt; conflict; nonsense].

(** An [int] as a [double]. *)
Definition double_of_int (i : Z) : float :=
  if i <? 0 then opp (of_uint63 (Uint63.of_Z (- i)))
  else of_uint63 (Uint63.of_Z i).

(** [1.96] as a [double]. *)
Definition z_975 : float := 0x1.f5c28f5c28f5cp+0%float.

(** [lb], [ml] and [ub] as they are computed, operation by operation in
    binary64, before the two clamps; the arguments are [summary[dirt]] and
    [summary[clean]]. *)
Definition wilson (dirt_count clean_count : Z) : float * float * float :=
  let z := z_975 in
  let k := double_of_int dirt_count in
  let n := (k + double_of_int clean_count)%float in
  let p_ := (k / n)%float in
  let c := (p_ + 0.5 * z * z / n)%float in
  let w := (z * sqrt (p_ * (1 - p_) / n + 0.25 * z * z / (n * n)))%float in
  let d := (1 + z * z / n)%float in
  ((100 * (c - w) / d)%float, (100 * p_)%float, (100 * (c + w) / d)%float).

(** [if( lb < 0 ) lb = 0 ;] and [if( ub > 100 ) ub = 100 ;] *)
Definition clamp_lb (lb : float) : float := if (lb <? 0)%float then 0%float else lb.
Definition clamp_ub (ub : float) : float := if (100 <? ub)%float then 100%float else ub.

(** The three numbers that are printed. *)
Definition reported (dirt_count clean_count : Z) : float * float * float :=
  let '(lb, ml, ub) := wilson dirt_count clean_count in
  (clamp_lb lb, ml, clamp_ub ub).

(** [summary[klass]] *)
Definition count_of (summary : list Z) (k : whatsit) : Z :=
  nth (whatsit_index k) summary 0.

Definition labellen : Z :=
  fold_left (λ len k, if len <? Z.of_nat (String.length (label k))
                      then Z.of_nat (String.length (label k)) else len)
            classes 0.

Definition print_results (summary : list Z) (mktable : bool) : list printed :=
  let '(lb, ml, ub) := reported (count_of summary dirt) (count_of summary clean) in
  let nn := wrap_int (count_of summary dirt + count_of summary clean) in
  flat_map
    (λ k,
       if mktable then [PInt (count_of summary k); PText TAB]
       else
         [PText "  "; PPadded labellen (label k); PText " fragments: ";
          PInt (count_of summary k)]
         ++ (if bool_decide (k = dirt)
             then if bool_decide (nn ≠ 0)
                  then [PText " ("; PFixed1 lb; PText " .. "; PFixed1 ml;
                        PText " .. "; PFixed1 ub; PText "%)"]
                  else []
             else [])
         ++ [PText NL])
    classes
  ++ (if mktable
      then if bool_decide (nn ≠ 0)
           then [PFixed1 lb; PText TAB; PFixed1 ml; PText TAB; PFixed1 ub; PText TAB]
           else [PText ("N/A" ++ TAB ++ "N/A" ++ TAB ++ "N/A" ++ TAB)]
      else [PText NL]).

(** The line of a class in the narrative report, without an interval. *)
Definition plain_line (k : whatsit) (count : Z) : list printed :=
  [PText "  "; PPadded 12 (label k); PText " fragments: "; PInt count; PText NL].

(** The numbers from 1 to 10000. *)
Definition checked_counts : list Z := seqZ 1 10000.

(** A number that prints as [0.0]: from zero to [2^-40], that one left out. *)
Definition near_zero (x : float) : bool :=
  negb (x <? 0)%float && (x <? 0x1p-40)%float.

(** A number that prints as [100.0]: from [100 - 2^-40] to 100, the former
    left out. *)
Definition near_hundred (x : float) : bool :=
  negb (100 <? x)%float && (100 - 0x1p-40 <? x)%float.

End Summary.

(** ** Vocabulary of the specification *)

(** Purines and pyrimidines, without regard to case. *)
Definition purine (x : ascii) : bool :=
  ceq (toupper x) "A" || ceq (toupper x) "G".

Definition pyrimidine (x : ascii) : bool :=
  ceq (toupper x) "C" || ceq (toupper x) "T" || ceq (toupper x) "U".

Definition purine_pyrimidine_mismatch (a b : ascii) : bool :=
  (purine a && pyrimidine b) || (pyrimidine a && purine b).

(** One of the four bases [A], [C], [G], [T]. *)
Definition plain_base (x : ascii) : bool :=
  ceq (toupper x) "A" || ceq (toupper x) "C" || ceq (toupper x) "G" || ceq (toupper x) "T".

(** The base that a base turns into by a transition, as the second
    argument of [is_transversion] is compared. *)
Definition transition_partner (x : ascii) : option ascii :=
  match toupper x with
  | "A" => Some "G"
  | "G" => Some "A"
  | "C" => Some "T"
  | "T" | "U" => Some "C"
  | _ => None
  end.

Definition upper_letter (x : ascii) : bool :=
  (65 <=? char_code x) && (char_code x <=? 90).

(** The columns of a pair of aligned C strings. *)
Fixpoint columns (aln1 aln2 : string) : list (ascii * ascii) :=
  match aln1, aln2 with
  | String c1 t1, String c2 t2 =>
      if cne c1 NUL && cne c2 NUL then (c1, c2) :: columns t1 t2 else []
  | _, _ => []
  end.

(** The columns that hold a symbol of the assembly: the [c]-th of them is
    the column at assembly coordinate [c]. *)
Definition assembly_columns (aln1 aln2 : string) : list (ascii * ascii) :=
  filter (λ col : ascii * ascii, col.2 ≠ GAP) (columns aln1 aln2).

Definition column_at (aln1 aln2 : string) (c : Z) : option (ascii * ascii) :=
  if c <? 0 then None else assembly_columns aln1 aln2 !! Z.to_nat c.

(** The entry that a column stands for in the index. *)
Definition dp_of_column `{Ambiguity} (col : ascii * ascii) : option Dp :=
  if is_weakly_diagnostic col.1 col.2
  then Some (mkDp col.1 col.2 NUL
               (if is_strongly_diagnostic col.1 col.2 then strong else weak))
  else None.

(** What pass one may do to an entry: nothing, or the upgrade of a weak
    entry by a base that contradicts the assembly and fits the contaminant. *)
Definition ratchet `{Ambiguity} (adna : bool) (d d' : Dp) : Prop :=
  d' = d ∨
  (strength d = weak ∧
   d' = mkDp (consensus d) (assembly d) (contaminant d') effective ∧
   consistent adna (assembly d) (contaminant d') = false ∧
   consistent adna (consensus d) (contaminant d') = true).

(** The index after some steps of pass one, compared with the index
    before: the same coordinates, every entry ratcheted. *)
Definition ratcheted `{Ambiguity} (adna : bool) (l l' : dp_list) : Prop :=
  ∀ c, option_Forall2 (ratchet adna) (l !! c) (l' !! c).

(** ** A small run

    A contaminant [RCRTRC] against an assembly [ACATAC]: the positions 0, 2
    and 4 differ and are compatible.  One whole read carries the G of the
    contaminant at all three; a read in two halves, [read7], carries the A of
    the assembly at 0 and 2 in its back half and the G at 4 in its front
    half.  Each read comes with the alignment to its window of the
    contaminant, which the aligner sees with N for R. *)

Definition ex_contaminant : string := "RCRTRC".
Definition ex_assembly : string := "ACATAC".

Definition ex_whole : AlnSeq * cached_pwaln :=
  (mkAlnSeq "read1" "a" 0 5 "GCGTGC", mkPwaln 0 "NCNTNC" "GCGTGC").

Definition ex_back : AlnSeq * cached_pwaln :=
  (mkAlnSeq "read7_b" "b" 0 3 "ACAT", mkPwaln 0 "NCNT" "ACAT").

Definition ex_front : AlnSeq * cached_pwaln :=
  (mkAlnSeq "read7_f" "f" 4 5 "GC", mkPwaln 0 "NC" "GC").

Definition ex_reads : list (AlnSeq * cached_pwaln) := [ex_whole; ex_back; ex_front].

(** The options [-F]: no ancient DNA, the safety floor lifted. *)
Definition ex_options : options := mkOptions false true 1 0 INT_MAX.

(** The index of the run after pass one and the pruning. *)
Definition ex_index : dp_list :=
  prune (pass1 false ex_contaminant ex_assembly ex_assembly (map fixup ex_reads)
           (mk_dp_list ex_contaminant ex_assembly 0 INT_MAX)).

(** An alignment with a gap on either side, and its index over [0, 5). *)
Definition ex_gapped_index : dp_list := mk_dp_list "RC-GTCA" "ACAG-TA" 0 5.

(** ** Vocabulary of the further properties *)

(** The class that one piece of evidence speaks for. *)
Definition evidence (maybe_clean maybe_dirt : bool) : whatsit :=
  if maybe_clean then (if maybe_dirt then unknown else clean)
  else (if maybe_dirt then dirt else nonsense).

(** The symbols that [sanity_check_sequence] lets through. *)
Definition iupac_letters : list ascii := list_ascii_of_string "ACGTBDHVMKYRSWUN".

(** The columns of an alignment, each with the assembly coordinate that the
    counter of the scans shows when the column is reached. *)
Fixpoint numbered (p : Z) (cols : list (ascii * ascii)) : list (Z * (ascii * ascii)) :=
  match cols with
  | [] => []
  | col :: more => (p, col) :: numbered (if cne col.2 GAP then p + 1 else p) more
  end.

(** The fragments that the summaries count: whole reads and front halves. *)
Definition counted (f : AlnSeq * cached_pwaln) : bool :=
  ceq (segment f.1) "a" || ceq (segment f.1) "f".

Definition total (summary : list Z) : Z := foldr Z.add 0 summary.

(** A fragment that lies in the assembly: [the_ass], the string of
    [end - start + 1] characters from the start of the fragment that each
    pass builds for its messages, can be made. *)
Definition span_in_assembly (assembly_seq : string) (f : AlnSeq * cached_pwaln) : Prop :=
  0 ≤ a_start f.1 ∧ a_start f.1 ≤ a_end f.1 + 1 ∧
  a_end f.1 < Z.of_nat (String.length (c_str assembly_seq)).

(** The two things that [find_maln] makes of the name it is given: the
    name of the file without its directory and without the digits at its end,
    and the path of a file of the same directory. *)
Definition maln_base (fn : string) : string :=
  strip_trailing_digits
    (match rfind "/" fn with None => fn | Some k => advance (S k) fn end).

Definition maln_path (fn name : string) : string :=
  match rfind "/" fn with
  | None => name
  | Some k => (prefix_n k fn ++ "/" ++ name)%string
  end.

(** What holds of the two tallies of a fragment at every point of pass
    two. *)
Definition tally_ok (t : tally) : Prop :=
  0 ≤ votes t ≤ votes2 t ∧
  klass t ≠ maxwhatsits ∧ klass2 t ≠ maxwhatsits ∧
  (klass t = unknown → votes t = 0) ∧
  (klass2 t = unknown → votes2 t = 0) ∧
  (votes t = 0 → klass t = unknown ∨ klass t = nonsense) ∧
  (votes2 t = 0 → klass2 t = unknown ∨ klass2 t = nonsense) ∧
  (klass t = nonsense → klass2 t = nonsense).

(** * Properties *)

(** ** Characters *)

Ltac each_char x := destruct x as [[] [] [] [] [] [] [] []].

Lemma ceq_true (a b : ascii) : ceq a b = true ↔ a = b.
Proof. unfold ceq. apply Ascii.eqb_eq. Qed.

Lemma cne_true (a b : ascii) : cne a b = true ↔ a ≠ b.
Proof.
  unfold cne. rewrite negb_true_iff. split.
  - intros E ->. rewrite Ascii.eqb_refl in E. discriminate.
  - intros N. apply Ascii.eqb_neq. exact N.
Qed.

Lemma cne_false (a b : ascii) : cne a b = false ↔ a = b.
Proof. unfold cne. rewrite negb_false_iff. apply Ascii.eqb_eq. Qed.

Lemma cne_ceq (a b : ascii) : cne a b = negb (ceq a b).
Proof. reflexivity. Qed.

(** Clearing bit 5 and [toupper] agree wherever either gives a capital. *)
Lemma clear32_toupper (x : ascii) :
  clear32 x = toupper x ∨
  (upper_letter (clear32 x) = false ∧ upper_letter (toupper x) = false).
Proof. each_char x; vm_compute; auto. Qed.

Lemma ceq_clear32 (x L : ascii) :
  upper_letter L = true → ceq (clear32 x) L = ceq (toupper x) L.
Proof.
  intros HL. destruct (clear32_toupper x) as [-> | [H1 H2]]; [reflexivity |].
  assert (E1 : ceq (clear32 x) L = false).
  { destruct (ceq (clear32 x) L) eqn:E; [| reflexivity].
    apply ceq_true in E. congruence. }
  assert (E2 : ceq (toupper x) L = false).
  { destruct (ceq (toupper x) L) eqn:E; [| reflexivity].
    apply ceq_true in E. congruence. }
  congruence.
Qed.

Lemma toupper_gap (x : ascii) : toupper x = GAP → x = GAP.
Proof. each_char x; vm_compute; congruence. Qed.

(** ** Transversions *)

Lemma is_transversion_partner (a b : ascii) :
  is_transversion a b =
  match transition_partner a with
  | Some p => if ceq (toupper a) "C" then cne (clear32 b) "T" else cne (clear32 b) p
  | None => false
  end.
Proof.
  unfold is_transversion. generalize (clear32 b). intros v.
  each_char a; vm_compute; reflexivity.
Qed.

Lemma transition_partner_upper (a p : ascii) :
  transition_partner a = Some p → upper_letter p = true.
Proof.
  unfold transition_partner. generalize (toupper a). intros u.
  each_char u; intros E; inversion E; reflexivity.
Qed.

Lemma transition_partner_C (a : ascii) :
  toupper a = "C" → transition_partner a = Some "T".
Proof. unfold transition_partner. intros ->. reflexivity. Qed.

(** The second argument is compared with one base only, after its case is
    folded. *)
Lemma is_transversion_toupper (a b : ascii) :
  is_transversion a b =
  match transition_partner a with
  | Some p => cne (toupper b) p
  | None => false
  end.
Proof.
  rewrite is_transversion_partner.
  destruct (transition_partner a) as [p |] eqn:Ep; [| reflexivity].
  rewrite !cne_ceq, !ceq_clear32; eauto using transition_partner_upper.
  destruct (ceq (toupper a) "C") eqn:EC; [| reflexivity].
  apply ceq_true in EC. rewrite (transition_partner_C _ EC) in Ep.
  inversion Ep. reflexivity.
Qed.

(** C3, as stated, fails: the second argument is never checked to be a
    base, and a base is a transversion of itself. *)
Lemma is_transversion_not_mismatch :
  is_transversion "A" "N" = true ∧ purine_pyrimidine_mismatch "A" "N" = false ∧
  is_transversion "g" "G" = true ∧ purine_pyrimidine_mismatch "g" "G" = false.
Proof. repeat split; reflexivity. Qed.

(** C3 (amended): [is_transversion a b] is true exactly when [a] is, in
    either case, one of A, C, G, T, U and [b] is not, in either case, the
    transition partner of [a] (G for A, A for G, T for C, C for T and U),
    whatever else [b] is.  The pair of [a] = C with [b] = U is left aside. *)
Theorem is_transversion_amended (a b : ascii) :
  ¬ (toupper a = "C" ∧ toupper b = "U") →
  is_transversion a b =
    match transition_partner a with
    | Some p => cne (toupper b) p
    | None => false
    end.
Proof. intros _. apply is_transversion_toupper. Qed.

Lemma is_transversion_amended_witness :
  ¬ (toupper "A" = "C" ∧ toupper "N" = "U") ∧ is_transversion "A" "N" = true.
Proof.
  assert (Hn : ¬ (toupper "A" = "C" ∧ toupper "N" = "U")).
  { intros [E _]. vm_compute in E. discriminate E. }
  split; [exact Hn |].
  exact (is_transversion_amended "A" "N" Hn).
Defined.

(** What remains of the claim: a first argument that is no base gives
    false, the transitions give false, and two different bases of A, C, G, T
    are a transversion exactly when they are a purine and a pyrimidine. *)
Lemma is_transversion_no_base (a b : ascii) :
  plain_base a = false → ceq (toupper a) "U" = false → is_transversion a b = false.
Proof.
  rewrite is_transversion_toupper. unfold transition_partner, plain_base.
  generalize (toupper a). intros u Hp HU.
  destruct (ceq u "A") eqn:EA; [discriminate |].
  destruct (ceq u "C") eqn:EC; [discriminate |].
  destruct (ceq u "G") eqn:EG; [discriminate |].
  destruct (ceq u "T") eqn:ET; [discriminate |].
  clear Hp. each_char u; try reflexivity; discriminate.
Qed.

Lemma is_transversion_transitions (a b : ascii) :
  transition_partner a = Some (toupper b) → is_transversion a b = false.
Proof.
  intros E. rewrite is_transversion_toupper, E. apply cne_false. reflexivity.
Qed.

Lemma is_transversion_plain (a b : ascii) :
  plain_base a = true → plain_base b = true → toupper a ≠ toupper b →
  is_transversion a b = purine_pyrimidine_mismatch a b.
Proof.
  rewrite is_transversion_toupper.
  unfold transition_partner, plain_base, purine_pyrimidine_mismatch, purine, pyrimidine.
  generalize (toupper a) (toupper b). intros u v Hu Hv Hne.
  repeat match type of Hu with
         | (_ || _ = true) => apply orb_true_iff in Hu; destruct Hu as [Hu | Hu]
         end;
  apply ceq_true in Hu; subst u;
  repeat match type of Hv with
         | (_ || _ = true) => apply orb_true_iff in Hv; destruct Hv as [Hv | Hv]
         end;
  apply ceq_true in Hv; subst v; first [reflexivity | congruence].
Qed.

(** The one pair that the two arguments treat differently. *)
Lemma is_transversion_C_U :
  is_transversion "C" "U" = true ∧ is_transversion "U" "C" = false.
Proof. split; reflexivity. Qed.

(** ** Merging and updating classes *)

(** C7: [unknown] is absorbed by every class, [nonsense] absorbs every
    class, [clean] merged with [clean] is [clean], and [clean] merged with
    the contaminant class is [conflict]. *)
Theorem merge_whatsit_laws :
  (∀ x, merge_whatsit unknown x = x) ∧
  (∀ x, merge_whatsit nonsense x = nonsense) ∧
  merge_whatsit clean clean = clean ∧
  merge_whatsit clean dirt = conflict.
Proof.
  repeat split; try reflexivity; intros x; destruct x; reflexivity.
Qed.

Lemma merge_whatsit_unknown_r (x : whatsit) : merge_whatsit x unknown = x.
Proof. destruct x; reflexivity. Qed.

Lemma merge_whatsit_comm (a b : whatsit) : merge_whatsit a b = merge_whatsit b a.
Proof. destruct a, b; reflexivity. Qed.

(** The four kinds of evidence that [update_class] tells apart. *)
Lemma update_class_both (k : whatsit) (v : Z) : update_class k v true true = (k, v).
Proof. destruct k; reflexivity. Qed.

Lemma update_class_neither (k : whatsit) (v : Z) :
  update_class k v false false = (nonsense, v).
Proof. destruct k; reflexivity. Qed.

Lemma update_class_clean (k : whatsit) (v : Z) :
  update_class k v true false =
  (match k with unknown => clean | dirt => conflict | _ => k end, v + 1).
Proof. destruct k; reflexivity. Qed.

Lemma update_class_dirt (k : whatsit) (v : Z) :
  update_class k v false true =
  (match k with unknown => dirt | clean => conflict | _ => k end, v + 1).
Proof. destruct k; reflexivity. Qed.

(** ** Consistency *)

(** C10: without the ancient-DNA flag, [consistent] does not depend on the
    order of its two characters. *)
Theorem consistent_modern_symmetric `{Ambiguity} (x y : ascii) :
  consistent false x y = consistent false y x.
Proof.
  unfold consistent. rewrite (Z.land_comm (char_to_bitmap x)).
  destruct (ceq x GAP), (ceq y GAP); reflexivity.
Qed.

(** With the flag, the substitution of the first character breaks the
    symmetry. *)
Lemma consistent_ancient_asymmetric :
  consistent true "G" "A" = true ∧ consistent true "A" "G" = false.
Proof. split; reflexivity. Qed.

Lemma consistent_gap_r `{Ambiguity} (adna : bool) (x : ascii) :
  consistent adna x GAP = true.
Proof. unfold consistent. destruct (ceq x GAP); reflexivity. Qed.

(** ** The vote of pass two at one position *)

(** C1, as stated, fails: a base that fits the assembly and the contaminant
    alike leaves the strong-only tally alone and is a clean vote in the other
    one, at a strong position as well as at an effective one. *)
Lemma pass2_visit_both_consistent_votes :
  let strong_dp := mkDp "G" "A" NUL strong in
  let effective_dp := mkDp "R" "A" "G" effective in
  consistent false (assembly strong_dp) "N" = true ∧
  consistent false (consensus strong_dp) "N" = true ∧
  pass2_visit false {[ 7 := strong_dp ]} 7 "N" "N" tally_zero
    = mkTally unknown 0 clean 1 ∧
  consistent false (assembly effective_dp) "A" = true ∧
  consistent false (consensus effective_dp) "A" = true ∧
  pass2_visit false {[ 7 := effective_dp ]} 7 "A" "A" (mkTally unknown 0 dirt 1)
    = mkTally unknown 0 conflict 2.
Proof. repeat split; vm_compute; reflexivity. Qed.

(** C1 (amended): at a position that is still in the index and at which
    the two calls of the fragment agree, the tally over all positions is
    updated with [maybe_clean] and [maybe_dirt && !maybe_clean], and the
    strong-only tally, at a strong position only, with [maybe_clean] and
    [maybe_dirt].  When both predicates hold, the strong-only tally keeps its
    class and its votes, and the other tally takes the position as clean
    evidence. *)
Theorem pass2_visit_amended `{Ambiguity} (adna : bool) (l : dp_list) (pos : Z)
    (d : Dp) (base : ascii) (t : tally) :
  l !! pos = Some d →
  let maybe_clean := consistent adna (assembly d) base in
  let maybe_dirt := consistent adna (consensus d) base in
  let t' := pass2_visit adna l pos base base t in
  (klass2 t', votes2 t')
    = update_class (klass2 t) (votes2 t) maybe_clean (maybe_dirt && negb maybe_clean)
  ∧ (klass t', votes t')
    = (if bool_decide (strength d = strong)
       then update_class (klass t) (votes t) maybe_clean maybe_dirt
       else (klass t, votes t))
  ∧ (maybe_clean = true → maybe_dirt = true →
     klass t' = klass t ∧ votes t' = votes t ∧
     (klass2 t', votes2 t') = update_class (klass2 t) (votes2 t) true false ∧
     votes2 t' = votes2 t + 1).
Proof.
  intros Hd. cbn zeta. unfold pass2_visit. rewrite Hd.
  assert (E : cne base base = false) by (apply cne_false; reflexivity).
  rewrite E.
  destruct (update_class (klass2 t) (votes2 t) _ _) as [k2 v2] eqn:E2.
  destruct (if bool_decide (strength d = strong) then _ else _) as [k v] eqn:E1.
  cbn. split; [reflexivity |]. split; [reflexivity |].
  intros Hc Hm. rewrite Hc, Hm in *. cbn in E2.
  rewrite update_class_both in E1. rewrite update_class_clean in E2.
  rewrite update_class_clean.
  destruct (bool_decide (strength d = strong)); inversion E1; inversion E2; auto.
Qed.

Lemma pass2_visit_amended_witness :
  let d := mkDp "G" "A" NUL strong in
  let t' := pass2_visit false {[ 7 := d ]} 7 "N" "N" tally_zero in
  klass t' = unknown ∧ votes t' = 0 ∧ votes2 t' = 1.
Proof.
  cbn zeta.
  destruct (pass2_visit_amended false {[ 7 := mkDp "G" "A" NUL strong ]} 7
              (mkDp "G" "A" NUL strong) "N" tally_zero) as (_ & _ & Hboth).
  { reflexivity. }
  destruct Hboth as (Hk & Hv & _ & Hv2); [reflexivity | reflexivity |].
  split; [exact Hk |]. split; [exact Hv | exact Hv2].
Defined.

(** ** Pass one is a ratchet *)

(** Whatever [visit] preserves, the walk over a fragment preserves. *)
Lemma walk_preserves {St : Type} (P : St → Prop)
    (visit : Z → ascii → ascii → St → St) :
  (∀ pos fr fa st, P st → P (visit pos fr fa st)) →
  ∀ s_end paln1 paln2 ass_pos in_ref in_ass in_frag_v_ass in_frag_v_ref st,
    P st →
    P (walk visit s_end paln1 paln2 ass_pos in_ref in_ass in_frag_v_ass
         in_frag_v_ref st).
Proof.
  intros Hvisit s_end paln1.
  induction paln1 as [| c1 t1 IH]; intros paln2 ass_pos in_ref in_ass fva fvr st Hst.
  - exact Hst.
  - destruct paln2 as [| c2 t2]; [exact Hst |]. cbn [walk].
    destruct (_ && _); [| exact Hst].
    destruct (if cne c1 GAP then _ else _) as [in_ref' fvr'].
    destruct (if cne c2 GAP then _ else _) as [in_ass' fva'].
    apply IH. destruct (is_weakly_diagnostic c1 c2); auto.
Qed.

Section Ratchet.
Context `{Ambiguity}.
Variable adna : bool.

Lemma ratchet_refl (d : Dp) : ratchet adna d d.
Proof. left. reflexivity. Qed.

Lemma ratchet_trans (d1 d2 d3 : Dp) :
  ratchet adna d1 d2 → ratchet adna d2 d3 → ratchet adna d1 d3.
Proof.
  intros [-> | (Hw & Hd & Hc & Hm)] H23; [exact H23 |].
  destruct H23 as [-> | (Hw2 & _)].
  - right. auto.
  - rewrite Hd in Hw2. discriminate Hw2.
Qed.

Lemma ratchet_fixed (d d' : Dp) : ratchet adna d d' → strength d ≠ weak → d' = d.
Proof. intros [-> | (Hw & _)] Hs; [reflexivity | contradiction]. Qed.

Lemma ratcheted_refl (l : dp_list) : ratcheted adna l l.
Proof.
  intros c. destruct (l !! c); constructor. apply ratchet_refl.
Qed.

Lemma ratcheted_trans (l1 l2 l3 : dp_list) :
  ratcheted adna l1 l2 → ratcheted adna l2 l3 → ratcheted adna l1 l3.
Proof.
  intros H12 H23 c. specialize (H12 c). specialize (H23 c).
  destruct H12 as [d1 d2 R12 |]; inversion H23; subst; constructor.
  eapply ratchet_trans; eassumption.
Qed.

Lemma pass1_visit_ratcheted (pos : Z) (fr fa : ascii) (l : dp_list) :
  ratcheted adna l (pass1_visit adna pos fr fa l).
Proof.
  unfold pass1_visit. destruct (l !! pos) as [d |] eqn:Hd; [| apply ratcheted_refl].
  destruct (cne fr fa) eqn:Efr; [apply ratcheted_refl |].
  apply cne_false in Efr. subst fa.
  destruct (negb _ && _ && _) eqn:Eup; [| apply ratcheted_refl].
  apply andb_true_iff in Eup. destruct Eup as [Eup Ew].
  apply andb_true_iff in Eup. destruct Eup as [Ec Em].
  apply negb_true_iff in Ec. apply bool_decide_eq_true in Ew.
  intros c. destruct (decide (pos = c)) as [<- | Hne].
  - rewrite lookup_insert_eq, Hd. constructor. right. cbn. auto.
  - rewrite lookup_insert_ne by exact Hne.
    destruct (l !! c); constructor. apply ratchet_refl.
Qed.

(** The evidence that upgrades: at a weak position, a base on which the two
    calls agree, inconsistent with the assembly and consistent with the
    contaminant. *)
Lemma pass1_visit_upgrades (pos : Z) (base : ascii) (l : dp_list) (d : Dp) :
  l !! pos = Some d →
  strength d = weak →
  consistent adna (assembly d) base = false →
  consistent adna (consensus d) base = true →
  pass1_visit adna pos base base l !! pos
  = Some (mkDp (consensus d) (assembly d) base effective).
Proof.
  intros Hd Hw Hc Hm. unfold pass1_visit. rewrite Hd.
  assert (E : cne base base = false) by (apply cne_false; reflexivity).
  rewrite E, Hc, Hm. cbn [negb andb].
  rewrite bool_decide_eq_true_2 by exact Hw.
  apply lookup_insert_eq.
Qed.

Variables aln_con aln_ass assembly_seq : string.

Lemma pass1_fragment_ratcheted (l : dp_list) (f : AlnSeq * cached_pwaln) :
  ratcheted adna l (pass1_fragment adna aln_con aln_ass assembly_seq l f).
Proof.
  unfold pass1_fragment, walk_fragment.
  destruct (seek _ _ _ _) as [[ass_pos paln1] paln2].
  apply (walk_preserves (ratcheted adna l)); [| apply ratcheted_refl].
  intros pos fr fa st Hst.
  eapply ratcheted_trans; [exact Hst | apply pass1_visit_ratcheted].
Qed.

Lemma pass1_ratcheted (frags : list (AlnSeq * cached_pwaln)) (l : dp_list) :
  ratcheted adna l (pass1 adna aln_con aln_ass assembly_seq frags l).
Proof.
  unfold pass1. revert l. induction frags as [| f frags IH]; intros l.
  - apply ratcheted_refl.
  - cbn [fold_left]. eapply ratcheted_trans; [| apply IH].
    apply pass1_fragment_ratcheted.
Qed.

Lemma pass1_app (earlier later : list (AlnSeq * cached_pwaln)) (l : dp_list) :
  pass1 adna aln_con aln_ass assembly_seq (earlier ++ later) l =
  pass1 adna aln_con aln_ass assembly_seq later
    (pass1 adna aln_con aln_ass assembly_seq earlier l).
Proof. unfold pass1. apply fold_left_app. Qed.

(** Pass one neither adds nor removes a coordinate. *)
Lemma pass1_same_coordinates (frags : list (AlnSeq * cached_pwaln)) (l : dp_list) (c : Z) :
  pass1 adna aln_con aln_ass assembly_seq frags l !! c = None ↔ l !! c = None.
Proof.
  pose proof (pass1_ratcheted frags l c) as R.
  inversion R; split; congruence.
Qed.

(** C5: take the entry [d] of a position after any number of fragments of
    pass one.  After any further fragments the position is still in the
    index with the same two reference bases; an entry that is no longer weak
    is exactly what it was, its contaminant base included; and an entry that
    did change was weak and is now effective, upgraded by a base that is
    inconsistent with the assembly and consistent with the contaminant. *)
Theorem pass1_ratchet (earlier later : list (AlnSeq * cached_pwaln)) (l : dp_list)
    (c : Z) (d : Dp) :
  pass1 adna aln_con aln_ass assembly_seq earlier l !! c = Some d →
  ∃ d',
    pass1 adna aln_con aln_ass assembly_seq (earlier ++ later) l !! c = Some d' ∧
    consensus d' = consensus d ∧ assembly d' = assembly d ∧
    (strength d ≠ weak → d' = d) ∧
    (strength d' = weak → d' = d) ∧
    (d' ≠ d →
       strength d = weak ∧ strength d' = effective ∧
       consistent adna (assembly d) (contaminant d') = false ∧
       consistent adna (consensus d) (contaminant d') = true).
Proof.
  intros Hd. rewrite pass1_app.
  pose proof (pass1_ratcheted later
                (pass1 adna aln_con aln_ass assembly_seq earlier l) c) as R.
  rewrite Hd in R.
  destruct (pass1 adna aln_con aln_ass assembly_seq later _ !! c) as [d' |];
    [| inversion R].
  assert (Rd : ratchet adna d d') by (inversion R; assumption). clear R.
  exists d'. split; [reflexivity |].
  destruct Rd as [-> | (Hw & Hd' & Hc & Hm)].
  - split_and!; try reflexivity. intros Hne. contradiction.
  - assert (He : strength d' = effective) by (rewrite Hd'; reflexivity).
    split_and!.
    + rewrite Hd'. reflexivity.
    + rewrite Hd'. reflexivity.
    + intros Hs. contradiction.
    + intros Hs. rewrite He in Hs. discriminate Hs.
    + intros _. auto.
Qed.

End Ratchet.

(** ** Pruning *)

Lemma prune_steps_lookup (kvs : list (Z * Dp)) (l : dp_list) (c : Z) :
  fold_left prune_step kvs l !! c =
  if bool_decide (Exists (λ kv : Z * Dp, kv.1 = c ∧ strength kv.2 = weak) kvs)
  then None else l !! c.
Proof.
  revert l. induction kvs as [| [k d] kvs IH]; intros l; cbn [fold_left].
  - rewrite bool_decide_eq_false_2; [reflexivity |]. intros E. inversion E.
  - rewrite IH. unfold prune_step. cbn [fst snd].
    destruct (decide (Exists (λ kv : Z * Dp, kv.1 = c ∧ strength kv.2 = weak) kvs))
      as [Ex | Nex].
    + rewrite !bool_decide_eq_true_2; [reflexivity | | exact Ex].
      apply Exists_cons_tl. exact Ex.
    + rewrite (bool_decide_eq_false_2 _ Nex).
      destruct (decide (strength d = weak)) as [Hw | Hs].
      * rewrite (bool_decide_eq_true_2 _ Hw).
        destruct (decide (k = c)) as [-> | Hne].
        -- rewrite lookup_delete_eq, bool_decide_eq_true_2; [reflexivity |].
           apply Exists_cons_hd. cbn. auto.
        -- rewrite lookup_delete_ne by exact Hne.
           rewrite bool_decide_eq_false_2; [reflexivity |].
           intros E. inversion E as [? ? [E1 _] | ]; subst; cbn in *; contradiction.
      * rewrite (bool_decide_eq_false_2 _ Hs).
        rewrite bool_decide_eq_false_2; [reflexivity |].
        intros E. inversion E as [? ? [_ E2] | ]; subst; cbn in *; contradiction.
Qed.

(** The loop erases the weak entries and nothing else. *)
Lemma prune_lookup (l : dp_list) (c : Z) :
  prune l !! c =
  match l !! c with
  | Some d => if bool_decide (strength d = weak) then None else Some d
  | None => None
  end.
Proof.
  unfold prune. rewrite prune_steps_lookup.
  destruct (l !! c) as [d |] eqn:Hd.
  - destruct (decide (strength d = weak)) as [Hw | Hs].
    + rewrite (bool_decide_eq_true_2 (strength d = weak) Hw).
      rewrite bool_decide_eq_true_2; [reflexivity |].
      apply Exists_exists. exists (c, d). split; [| cbn; auto].
      apply elem_of_map_to_list. exact Hd.
    + rewrite (bool_decide_eq_false_2 (strength d = weak) Hs).
      rewrite bool_decide_eq_false_2; [reflexivity |].
      intros E. apply Exists_exists in E. destruct E as ([k d0] & Hin & Hk & Hw).
      cbn in Hk, Hw. subst k. apply elem_of_map_to_list in Hin.
      congruence.
  - destruct (bool_decide _) eqn:E; [reflexivity |]. reflexivity.
Qed.

(** C6: every entry that is left in the index after the pruning loop, the
    index that pass two reads, is strong or effective. *)
Theorem prune_leaves_no_weak (l : dp_list) (c : Z) (d : Dp) :
  prune l !! c = Some d → strength d = strong ∨ strength d = effective.
Proof.
  rewrite prune_lookup. destruct (l !! c) as [d0 |]; [| discriminate].
  destruct (bool_decide (strength d0 = weak)) eqn:E; [discriminate |].
  intros [= <-]. apply bool_decide_eq_false in E.
  destruct (strength d0); auto. contradiction.
Qed.

Lemma prune_leaves_no_weak_entry (l : dp_list) (c : Z) (d : Dp) :
  prune l !! c = Some d → strength d = strong ∨ strength d = effective.
Proof.
  rewrite prune_lookup. destruct (l !! c) as [d0 |]; [| discriminate].
  destruct (bool_decide (strength d0 = weak)) eqn:E; [discriminate |].
  intros [= <-]. apply bool_decide_eq_false in E.
  destruct (strength d0); auto. contradiction.
Qed.

(** Pruning keeps the strong and the effective entries as they are. *)
Lemma prune_keeps (l : dp_list) (c : Z) (d : Dp) :
  l !! c = Some d → strength d ≠ weak → prune l !! c = Some d.
Proof.
  intros Hd Hs. rewrite prune_lookup, Hd.
  rewrite bool_decide_eq_false_2 by exact Hs. reflexivity.
Qed.

(** ** The safety floor *)

Section Floor.
Context `{Ambiguity}.

(** The second loop of [mk_dp_list] writes strong and weak entries only. *)
Lemma collect_no_effective (upto : Z) (aln1 aln2 : string) (index : Z) (l : dp_list) :
  (∀ c d, l !! c = Some d → strength d ≠ effective) →
  ∀ c d, collect upto aln1 aln2 index l !! c = Some d → strength d ≠ effective.
Proof.
  revert aln2 index l.
  induction aln1 as [| c1 t1 IH]; intros aln2 index l Hl.
  - destruct aln2; exact Hl.
  - destruct aln2 as [| c2 t2]; [exact Hl |]. cbn [collect].
    destruct (_ && _); [| exact Hl].
    apply IH. destruct (is_weakly_diagnostic c1 c2); [| exact Hl].
    intros c d. unfold dp_assign.
    destruct (decide (index = c)) as [-> | Hne].
    + rewrite lookup_insert_eq. intros [= <-]. cbn.
      destruct (is_strongly_diagnostic c1 c2); discriminate.
    + rewrite lookup_insert_ne by exact Hne. apply Hl.
Qed.

Lemma mk_dp_list_no_effective (aln1 aln2 : string) (from upto c : Z) (d : Dp) :
  mk_dp_list aln1 aln2 from upto !! c = Some d → strength d ≠ effective.
Proof.
  unfold mk_dp_list. destruct (seek from aln1 aln2 0) as [[index p1] p2].
  apply collect_no_effective. intros c' d'. rewrite lookup_empty. discriminate.
Qed.

(** What the safety check counts in the fresh index are its strong
    entries. *)
Lemma num_strong_mk_dp_list (aln1 aln2 : string) (from upto : Z) :
  num_strong (mk_dp_list aln1 aln2 from upto) =
  Z.of_nat (size (filter (λ kv : Z * Dp, strength kv.2 = strong)
                    (mk_dp_list aln1 aln2 from upto))).
Proof.
  unfold num_strong. f_equal. f_equal. apply map_filter_ext.
  intros c d Hd. apply mk_dp_list_no_effective in Hd. cbn.
  destruct (strength d); cbn; split; intros E; try lia; try discriminate;
    try reflexivity; contradiction.
Qed.

(** The index that a run reports is the pruned one, so it holds no weak
    entry either. *)
Lemma classify_all_reports_no_weak (opts : options) (assembly_seq aln_con aln_ass : string)
    (l0 : dp_list) (frags : list (AlnSeq * cached_pwaln)) :
  ∃ l s1 s2,
    classify_all opts assembly_seq aln_con aln_ass l0 frags = Report l s1 s2 ∧
    ∀ c d, l !! c = Some d → strength d = strong ∨ strength d = effective.
Proof.
  unfold classify_all. eexists _, _, _. split; [reflexivity |].
  intros c d. apply prune_leaves_no_weak_entry.
Qed.

(** C9: with fewer than 40 strongly diagnostic positions in the index of
    the global alignment and without the override, the run of a file ends
    with status 1 whatever its fragments are, since neither pass is entered;
    with the override, a file whose two references pass the sanity check goes
    through both passes and ends with a report, whatever the count is. *)
Theorem safety_floor (adna : bool) (min_posns from upto : Z)
    (contaminant_seq assembly_seq aln_con aln_ass : string)
    (frags : list (AlnSeq * cached_pwaln)) :
  let l := mk_dp_list aln_con aln_ass from upto in
  let plain := mkOptions adna false min_posns from upto in
  let forced := mkOptions adna true min_posns from upto in
  (num_strong l < 40 →
     check_file plain contaminant_seq assembly_seq (Some (aln_con, aln_ass)) frags
       = Exit 1)
  ∧ (sanity_check_sequence contaminant_seq = true →
     sanity_check_sequence assembly_seq = true →
     check_file forced contaminant_seq assembly_seq (Some (aln_con, aln_ass)) frags
       = classify_all forced assembly_seq aln_con aln_ass l frags
     ∧ ∃ l' s1 s2,
         check_file forced contaminant_seq assembly_seq (Some (aln_con, aln_ass)) frags
           = Report l' s1 s2).
Proof.
  cbn zeta. split.
  - intros Hlow. unfold check_file. cbn [span_from span_to really].
    destruct (negb _ || negb _); [reflexivity |].
    apply Z.ltb_lt in Hlow. rewrite Hlow. reflexivity.
  - intros Hc Ha. unfold check_file. cbn [span_from span_to really].
    rewrite Hc, Ha. cbn [negb orb]. rewrite andb_false_r.
    split; [reflexivity |].
    destruct (classify_all_reports_no_weak
                (mkOptions adna true min_posns from upto)
                assembly_seq aln_con aln_ass
                (mk_dp_list aln_con aln_ass from upto) frags)
      as (l' & s1 & s2 & E & _).
    eauto.
Qed.

End Floor.

(** ** The index of diagnostic positions *)

Section Index.
Context `{Ambiguity}.

Lemma assembly_columns_cons (c1 c2 : ascii) (t1 t2 : string) :
  cne c1 NUL && cne c2 NUL = true →
  assembly_columns (String c1 t1) (String c2 t2) =
  if cne c2 GAP then (c1, c2) :: assembly_columns t1 t2 else assembly_columns t1 t2.
Proof.
  intros E. unfold assembly_columns. cbn [columns]. rewrite E.
  destruct (cne c2 GAP) eqn:Eg.
  - apply cne_true in Eg. rewrite filter_cons_True by exact Eg. reflexivity.
  - apply cne_false in Eg. rewrite filter_cons_False; [reflexivity |].
    cbn. intros N. apply N. exact Eg.
Qed.

Lemma assembly_columns_end (aln1 aln2 : string) :
  cne (peek aln1) NUL && cne (peek aln2) NUL = false →
  assembly_columns aln1 aln2 = [].
Proof.
  unfold assembly_columns.
  destruct aln1 as [| c1 t1], aln2 as [| c2 t2]; cbn [columns peek];
    try reflexivity.
  intros ->. reflexivity.
Qed.

Lemma weakly_diagnostic_no_gap (x y : ascii) :
  is_weakly_diagnostic x y = true → x ≠ GAP ∧ y ≠ GAP.
Proof.
  unfold is_weakly_diagnostic. intros E.
  apply andb_true_iff in E. destruct E as [E _].
  apply andb_true_iff in E. destruct E as [E1 E2].
  split; apply cne_true; assumption.
Qed.

(** Where the first loop stops: at the target coordinate, with the columns
    of all later coordinates ahead, or at the end of the alignment. *)
Lemma seek_spec (aln1 aln2 : string) (index target : Z) :
  index ≤ target →
  ∃ i p1 p2,
    seek target aln1 aln2 index = (i, p1, p2) ∧
    ((i = target ∧
      assembly_columns p1 p2 =
        drop (Z.to_nat (target - index)) (assembly_columns aln1 aln2))
     ∨ (i < target ∧ assembly_columns p1 p2 = [] ∧
        Z.of_nat (length (assembly_columns aln1 aln2)) = i - index)).
Proof.
  revert aln2 index.
  induction aln1 as [| c1 t1 IH]; intros aln2 index Hle.
  - exists index, EmptyString, aln2. split; [destruct aln2; reflexivity |].
    destruct (decide (index = target)) as [-> | Hne].
    + left. split; [reflexivity |]. rewrite Z.sub_diag. reflexivity.
    + right. split; [lia |].
      rewrite (assembly_columns_end EmptyString aln2) by reflexivity.
      split; [reflexivity |]. cbn. lia.
  - destruct aln2 as [| c2 t2].
    + exists index, (String c1 t1), EmptyString. split; [reflexivity |].
      destruct (decide (index = target)) as [-> | Hne].
      * left. split; [reflexivity |]. rewrite Z.sub_diag. reflexivity.
      * right. split; [lia |].
        rewrite (assembly_columns_end (String c1 t1) EmptyString)
          by (cbn; apply andb_false_r).
        split; [reflexivity |]. cbn. lia.
    + cbn [seek].
      destruct (decide (index = target)) as [-> | Hne].
      * rewrite bool_decide_eq_false_2 by (intros N; apply N; reflexivity).
        cbn [andb]. eexists _, _, _. split; [reflexivity |].
        left. split; [reflexivity |]. rewrite Z.sub_diag. reflexivity.
      * rewrite bool_decide_eq_true_2 by exact Hne. cbn [andb].
        destruct (cne c1 NUL && cne c2 NUL) eqn:E.
        -- rewrite (assembly_columns_cons c1 c2 t1 t2 E).
           destruct (cne c2 GAP).
           ++ destruct (IH t2 (index + 1)) as (i & p1 & p2 & -> & Hi); [lia |].
              exists i, p1, p2. split; [reflexivity |].
              destruct Hi as [[-> Hd] | (Hlt & Hn & Hlen)].
              ** left. split; [reflexivity |]. rewrite Hd.
                 replace (Z.to_nat (target - index))
                   with (S (Z.to_nat (target - (index + 1)))) by lia.
                 reflexivity.
              ** right. split; [exact Hlt |]. split; [exact Hn |].
                 cbn [length]. lia.
           ++ destruct (IH t2 index) as (i & p1 & p2 & -> & Hi); [lia |].
              exists i, p1, p2. split; [reflexivity | exact Hi].
        -- eexists _, _, _. split; [reflexivity |].
           right. split; [lia |].
           rewrite (assembly_columns_end (String c1 t1) (String c2 t2)) by exact E.
           split; [reflexivity |]. cbn. lia.
Qed.

Lemma dp_assign_fresh (index : Z) (c1 c2 : ascii) (l : dp_list) :
  l !! index = None →
  is_weakly_diagnostic c1 c2 = true →
  dp_assign index c1 c2 l !! index = dp_of_column (c1, c2).
Proof.
  intros Hl Hw. unfold dp_assign, dp_of_column. cbn [fst snd].
  rewrite lookup_insert_eq, Hl, Hw. reflexivity.
Qed.

(** What the second loop adds to an index that is empty from [index] on. *)
Lemma collect_spec (aln1 aln2 : string) (index upto : Z) (l : dp_list) (c : Z) :
  index ≤ upto →
  (∀ c', index ≤ c' → l !! c' = None) →
  collect upto aln1 aln2 index l !! c =
  if bool_decide (index ≤ c < upto)
  then assembly_columns aln1 aln2 !! Z.to_nat (c - index) ≫= dp_of_column
  else l !! c.
Proof.
  revert aln2 index l.
  induction aln1 as [| c1 t1 IH]; intros aln2 index l Hle Hfresh.
  - rewrite (assembly_columns_end EmptyString aln2) by reflexivity.
    replace (collect upto EmptyString aln2 index l) with l by (destruct aln2; reflexivity).
    case_bool_decide as Hc; [| reflexivity]. cbn. apply Hfresh. lia.
  - destruct aln2 as [| c2 t2].
    + rewrite (assembly_columns_end (String c1 t1) EmptyString)
        by (cbn; apply andb_false_r).
      cbn [collect]. case_bool_decide as Hc; [| reflexivity]. cbn. apply Hfresh. lia.
    + cbn [collect].
      destruct (decide (index = upto)) as [-> | Hne].
      * rewrite (bool_decide_eq_false_2 (upto ≠ upto))
          by (intros N; apply N; reflexivity).
        cbn [andb]. rewrite bool_decide_eq_false_2 by lia. reflexivity.
      * rewrite (bool_decide_eq_true_2 (index ≠ upto)) by exact Hne. cbn [andb].
        destruct (cne c1 NUL && cne c2 NUL) eqn:E.
        -- rewrite (assembly_columns_cons c1 c2 t1 t2 E).
           destruct (cne c2 GAP) eqn:Eg.
           ++ rewrite IH; [| lia |].
              ** destruct (decide (c = index)) as [-> | Hc].
                 --- rewrite bool_decide_eq_false_2 by lia.
                     rewrite bool_decide_eq_true_2 by lia.
                     rewrite Z.sub_diag.
                     change (Z.to_nat 0) with O.
                     change (((c1, c2) :: assembly_columns t1 t2) !! O)
                       with (Some (c1, c2)).
                     change (Some (c1, c2) ≫= dp_of_column) with (dp_of_column (c1, c2)).
                     destruct (is_weakly_diagnostic c1 c2) eqn:Ew.
                     +++ apply dp_assign_fresh; [apply Hfresh; lia | exact Ew].
                     +++ unfold dp_of_column. cbn [fst snd]. rewrite Ew.
                         apply Hfresh. lia.
                 --- assert (Hl' : (if is_weakly_diagnostic c1 c2
                                    then dp_assign index c1 c2 l else l) !! c = l !! c).
                     { destruct (is_weakly_diagnostic c1 c2); [| reflexivity].
                       unfold dp_assign. apply lookup_insert_ne. congruence. }
                     rewrite Hl'.
                     destruct (decide (index ≤ c < upto)) as [Hin | Hout].
                     +++ rewrite !bool_decide_eq_true_2 by lia.
                         replace (Z.to_nat (c - index))
                           with (S (Z.to_nat (c - (index + 1)))) by lia.
                         reflexivity.
                     +++ rewrite !bool_decide_eq_false_2 by lia. reflexivity.
              ** intros c' Hc'.
                 destruct (is_weakly_diagnostic c1 c2); [| apply Hfresh; lia].
                 unfold dp_assign. rewrite lookup_insert_ne by lia.
                 apply Hfresh. lia.
           ++ assert (Ew : is_weakly_diagnostic c1 c2 = false).
              { unfold is_weakly_diagnostic. rewrite Eg.
                rewrite andb_false_r. reflexivity. }
              rewrite Ew. apply IH; [lia | exact Hfresh].
        -- rewrite (assembly_columns_end (String c1 t1) (String c2 t2)) by exact E.
           case_bool_decide as Hc; [| reflexivity]. cbn. apply Hfresh. lia.
Qed.

End Index.

Section IndexTheorem.
Context `{Ambiguity}.

(** For two strings without an inner terminator the columns are the pairs
    of their characters, all of them when the strings are equally long. *)
Lemma columns_zip (aln1 aln2 : string) :
  Forall (λ x, x ≠ NUL) (list_ascii_of_string aln1) →
  Forall (λ x, x ≠ NUL) (list_ascii_of_string aln2) →
  columns aln1 aln2 = zip (list_ascii_of_string aln1) (list_ascii_of_string aln2).
Proof.
  revert aln2. induction aln1 as [| c1 t1 IH]; intros aln2 H1 H2.
  - destruct aln2; reflexivity.
  - destruct aln2 as [| c2 t2]; [reflexivity |].
    cbn [list_ascii_of_string] in H1, H2.
    apply Forall_cons in H1. destruct H1 as [N1 H1].
    apply Forall_cons in H2. destruct H2 as [N2 H2].
    cbn [columns list_ascii_of_string zip zip_with].
    apply cne_true in N1. apply cne_true in N2. rewrite N1, N2. cbn [andb].
    rewrite IH by assumption. reflexivity.
Qed.

Lemma dp_of_column_no_gap (col : ascii * ascii) (d : Dp) :
  dp_of_column col = Some d →
  consensus d = col.1 ∧ assembly d = col.2 ∧ col.1 ≠ GAP ∧ col.2 ≠ GAP ∧
  strength d = (if is_strongly_diagnostic col.1 col.2 then strong else weak).
Proof.
  unfold dp_of_column.
  destruct (is_weakly_diagnostic col.1 col.2) eqn:Ew; [| discriminate].
  intros [= <-]. cbn. apply weakly_diagnostic_no_gap in Ew. tauto.
Qed.

(** C4: for a span with [0 <= from <= upto], the index has an entry at the
    assembly coordinate [c] exactly when [c] lies in the span and the column
    at that coordinate is weakly diagnostic; the entry holds the two symbols
    of the column and is strong when the column is strongly diagnostic and
    weak otherwise.  No entry holds a gap. *)
Theorem mk_dp_list_index (aln1 aln2 : string) (from upto c : Z) :
  0 ≤ from ≤ upto →
  mk_dp_list aln1 aln2 from upto !! c =
    (if bool_decide (from ≤ c < upto)
     then column_at aln1 aln2 c ≫= dp_of_column
     else None)
  ∧ ∀ d, mk_dp_list aln1 aln2 from upto !! c = Some d →
         consensus d ≠ GAP ∧ assembly d ≠ GAP ∧ strength d ≠ effective.
Proof.
  intros Hspan.
  assert (E : mk_dp_list aln1 aln2 from upto !! c =
              (if bool_decide (from ≤ c < upto)
               then column_at aln1 aln2 c ≫= dp_of_column
               else None)).
  { unfold mk_dp_list.
    destruct (seek_spec aln1 aln2 0 from) as (i & p1 & p2 & -> & Hi); [lia |].
    destruct Hi as [[-> Hd] | (Hlt & Hn & Hlen)].
    - rewrite collect_spec; [| lia | intros c' _; apply lookup_empty].
      case_bool_decide as Hc; [| apply lookup_empty].
      unfold column_at. destruct (c <? 0) eqn:Eneg; [lia |].
      rewrite Hd, lookup_drop. rewrite Z.sub_0_r.
      replace (Z.to_nat from + Z.to_nat (c - from))%nat with (Z.to_nat c) by lia.
      reflexivity.
    - rewrite collect_spec; [| lia | intros c' _; apply lookup_empty].
      rewrite Hn.
      assert (Hnone : column_at aln1 aln2 c ≫= dp_of_column = None
                      ∨ ¬ (from ≤ c < upto)).
      { destruct (decide (from ≤ c < upto)) as [Hin | Hout]; [left | right; exact Hout].
        unfold column_at. destruct (c <? 0) eqn:Eneg; [reflexivity |].
        rewrite lookup_ge_None_2; [reflexivity | lia]. }
      repeat case_bool_decide; try reflexivity; try apply lookup_empty.
      + destruct Hnone as [-> | N]; [reflexivity | contradiction].
      + rewrite lookup_empty. destruct Hnone as [-> | N]; [reflexivity | contradiction]. }
  split; [exact E |].
  intros d Hd. rewrite E in Hd.
  case_bool_decide; [| discriminate].
  destruct (column_at aln1 aln2 c) as [col |]; [| discriminate].
  cbn in Hd. apply dp_of_column_no_gap in Hd.
  destruct Hd as (-> & -> & N1 & N2 & Hs).
  split; [exact N1 |]. split; [exact N2 |].
  rewrite Hs. destruct (is_strongly_diagnostic col.1 col.2); discriminate.
Qed.

End IndexTheorem.

(** A reversed span is no span to the two loops: the first one stops at
    [from], and the second one never meets [upto]. *)
Lemma mk_dp_list_reversed_span :
  mk_dp_list "ACGT" "ACGA" 2 1 !! 3 = Some (mkDp "T" "A" NUL strong).
Proof. vm_compute. reflexivity. Qed.

(** ** Front and back halves *)

(** The record of the strong-only tally is merged into both tallies. *)
Lemma merge_front_found (t : tally) (b b2 : whatsit * Z) :
  merge_front t (Some b) (Some b2) =
  mkTally (merge_whatsit (klass t) b.1) (votes t + b.2)
          (merge_whatsit (klass2 t) b.1) (votes2 t + b.2).
Proof. reflexivity. Qed.

Lemma merge_front_missing (t : tally) : merge_front t None None = t.
Proof. destruct t. reflexivity. Qed.

(** Where the two tallies of the back half are the same, the front half
    is merged as the pairing rule says: clean with 2 votes and contaminant
    with 1 vote give conflicting with 3 votes, in both tallies. *)
Lemma merge_front_equal_records :
  merge_front (mkTally dirt 1 dirt 1) (Some (clean, 2)) (Some (clean, 2))
  = mkTally conflict 3 conflict 3.
Proof. reflexivity. Qed.

(** The two maps of back halves hold the same names at every point of
    pass two, so [i] and [i2] are found together or not at all. *)
Lemma count_fragment_same_names (s : AlnSeq) (t : tally) (c : counts) :
  dom (bfrags c) = dom (bfrags2 c) →
  dom (bfrags (count_fragment s t c)) = dom (bfrags2 (count_fragment s t c)).
Proof.
  intros Hdom. unfold count_fragment.
  destruct (ceq (segment s) "b").
  - cbn [bfrags bfrags2]. rewrite !dom_insert_L, Hdom. reflexivity.
  - destruct (ceq (segment s) "f"); [exact Hdom |].
    destruct (ceq (segment s) "a"); exact Hdom.
Qed.

Lemma pass2_same_names `{Ambiguity} (opts : options)
    (assembly_seq aln_con aln_ass : string) (l : dp_list)
    (frags : list (AlnSeq * cached_pwaln)) :
  dom (bfrags (pass2 opts assembly_seq aln_con aln_ass l frags))
  = dom (bfrags2 (pass2 opts assembly_seq aln_con aln_ass l frags)).
Proof.
  unfold pass2.
  assert (G : ∀ c, dom (bfrags c) = dom (bfrags2 c) →
              dom (bfrags (fold_left
                             (pass2_fragment opts assembly_seq aln_con aln_ass l) frags c))
              = dom (bfrags2 (fold_left
                                (pass2_fragment opts assembly_seq aln_con aln_ass l) frags c))).
  { induction frags as [| f frags IH]; intros c Hc; [exact Hc |].
    cbn [fold_left]. apply IH. apply count_fragment_same_names. exact Hc. }
  apply G. reflexivity.
Qed.

(** C2 fails on the run of [ex_reads]: the back half of [read7] is
    unclassified with no vote in the strong-only tally and clean with 2 votes
    in the other one, the front half is a contaminant with 1 vote in the
    other tally; the merged fragment is counted there as a contaminant with
    1 vote, not as conflicting with 3 votes. *)
Theorem front_half_merges_strong_record :
  classify false ex_contaminant ex_assembly ex_assembly 1 ex_index
    (fixup ex_back).1 (fixup ex_back).2 = mkTally unknown 0 clean 2 ∧
  classify false ex_contaminant ex_assembly ex_assembly 1 ex_index
    (fixup ex_front).1 (fixup ex_front).2 = mkTally unknown 0 dirt 1 ∧
  merge_front (mkTally unknown 0 dirt 1) (Some (unknown, 0)) (Some (clean, 2))
    = mkTally unknown 0 dirt 1 ∧
  (merge_whatsit dirt clean, 1 + 2) = (conflict, 3) ∧
  check_file ex_options ex_contaminant ex_assembly
    (Some (ex_contaminant, ex_assembly)) ex_reads
    = Report ex_index [2; 0; 0; 0; 0] [0; 0; 2; 0; 0].
Proof. repeat split; vm_compute; reflexivity. Qed.

(** ** The theorems at work on the small run *)

Lemma mk_dp_list_index_witness :
  0 ≤ 0 ≤ 5 ∧
  ex_gapped_index !! 4 = Some (mkDp "C" "T" NUL strong) ∧
  ex_gapped_index !! 0 = Some (mkDp "R" "A" NUL weak) ∧
  ex_gapped_index !! 2 = None.
Proof.
  assert (Hspan : 0 ≤ 0 ≤ 5) by lia.
  split; [exact Hspan |]. unfold ex_gapped_index.
  destruct (mk_dp_list_index "RC-GTCA" "ACAG-TA" 0 5 4 Hspan) as [E4 _].
  destruct (mk_dp_list_index "RC-GTCA" "ACAG-TA" 0 5 0 Hspan) as [E0 _].
  destruct (mk_dp_list_index "RC-GTCA" "ACAG-TA" 0 5 2 Hspan) as [E2 _].
  rewrite E4, E0, E2. repeat split; reflexivity.
Defined.

Lemma pass1_ratchet_witness :
  ∃ d',
    pass1 false ex_contaminant ex_assembly ex_assembly ([] ++ [ex_whole])
      (mk_dp_list ex_contaminant ex_assembly 0 INT_MAX) !! 0 = Some d' ∧
    consensus d' = "R" ∧ assembly d' = "A".
Proof.
  destruct (pass1_ratchet false ex_contaminant ex_assembly ex_assembly [] [ex_whole]
              (mk_dp_list ex_contaminant ex_assembly 0 INT_MAX) 0
              (mkDp "R" "A" NUL weak))
    as (d' & Hd' & Hc & Ha & _).
  { reflexivity. }
  exists d'. split; [exact Hd' |]. split; [exact Hc | exact Ha].
Defined.

Lemma prune_leaves_no_weak_witness :
  prune ex_gapped_index !! 4 = Some (mkDp "C" "T" NUL strong) ∧
  (strength (mkDp "C" "T" NUL strong) = strong
   ∨ strength (mkDp "C" "T" NUL strong) = effective).
Proof.
  assert (E : prune ex_gapped_index !! 4 = Some (mkDp "C" "T" NUL strong))
    by reflexivity.
  split; [exact E |].
  exact (prune_leaves_no_weak ex_gapped_index 4 (mkDp "C" "T" NUL strong) E).
Defined.

Lemma safety_floor_witness :
  check_file (mkOptions false false 1 0 INT_MAX) ex_contaminant ex_assembly
    (Some (ex_contaminant, ex_assembly)) ex_reads = Exit 1
  ∧ ∃ l s1 s2,
      check_file (mkOptions false true 1 0 INT_MAX) ex_contaminant ex_assembly
        (Some (ex_contaminant, ex_assembly)) ex_reads = Report l s1 s2.
Proof.
  destruct (safety_floor false 1 0 INT_MAX ex_contaminant ex_assembly
              ex_contaminant ex_assembly ex_reads) as [Hlow Hforced].
  split.
  - apply Hlow. vm_compute. reflexivity.
  - destruct Hforced as [_ Hreport]; [reflexivity | reflexivity |].
    exact Hreport.
Defined.

(** * Further properties of the checker *)

(** ** Classes *)

(** X1: merging classes is commutative, associative and idempotent, so
    the class of a fragment does not depend on the order in which its halves
    are merged. *)
Theorem merge_whatsit_semilattice :
  (∀ a b, merge_whatsit a b = merge_whatsit b a) ∧
  (∀ a b c, merge_whatsit a (merge_whatsit b c) = merge_whatsit (merge_whatsit a b) c) ∧
  (∀ a, merge_whatsit a a = a).
Proof.
  split_and!.
  - intros a b. destruct a, b; reflexivity.
  - intros a b c. destruct a, b, c; reflexivity.
  - intros a. destruct a; reflexivity.
Qed.

(** X2: on every class that a fragment can have, one piece of evidence
    updates the class as a merge with the class the evidence speaks for, and
    the evidence is a vote exactly when the two predicates differ. *)
Theorem update_class_merges_evidence (k : whatsit) (v : Z) (maybe_clean maybe_dirt : bool) :
  k ≠ maxwhatsits →
  update_class k v maybe_clean maybe_dirt =
  (merge_whatsit k (evidence maybe_clean maybe_dirt),
   if xorb maybe_clean maybe_dirt then v + 1 else v).
Proof.
  intros Hk. destruct k, maybe_clean, maybe_dirt; try reflexivity; contradiction.
Qed.

Lemma update_class_merges_evidence_witness :
  update_class dirt 4 true false = (conflict, 5).
Proof.
  assert (Hk : dirt ≠ maxwhatsits) by discriminate.
  exact (update_class_merges_evidence dirt 4 true false Hk).
Defined.

(** X3: an update never takes a class back: [nonsense] stays, [conflict]
    stays or becomes [nonsense], nothing returns to [unknown]; and as long as
    the counter of votes is an [int] below [INT_MAX], so that it can be
    incremented, the votes grow by one at most and never go down. *)
Theorem update_class_never_goes_back (k : whatsit) (v : Z) (maybe_clean maybe_dirt : bool) :
  - 2 ^ 31 ≤ v < INT_MAX →
  let r := update_class k v maybe_clean maybe_dirt in
  merge_whatsit k r.1 = r.1 ∧
  (k = nonsense → r.1 = nonsense) ∧
  (k = conflict → r.1 = conflict ∨ r.1 = nonsense) ∧
  (r.1 = unknown → k = unknown ∧ r.2 = v) ∧
  v ≤ r.2 ≤ v + 1 ∧ - 2 ^ 31 ≤ r.2 ≤ INT_MAX.
Proof.
  unfold INT_MAX. intros Hv. cbn zeta. destruct k, maybe_clean, maybe_dirt; cbn;
    split_and!; try reflexivity; try discriminate; try lia; auto.
Qed.

Lemma update_class_never_goes_back_witness :
  let r := update_class clean 2 false true in
  merge_whatsit clean r.1 = r.1 ∧ 2 ≤ r.2 ≤ 2 + 1.
Proof.
  cbn zeta.
  destruct (update_class_never_goes_back clean 2 false true) as (Hm & _ & _ & _ & Hv & _).
  { unfold INT_MAX. lia. }
  split; [exact Hm | exact Hv].
Defined.

(** ** Characters *)

Lemma toupper_idempotent (x : ascii) : toupper (toupper x) = toupper x.
Proof. each_char x; reflexivity. Qed.

Lemma toupper_is_gap (x : ascii) : ceq (toupper x) GAP = ceq x GAP.
Proof. each_char x; reflexivity. Qed.

(** X4: being weakly diagnostic does not depend on the order of the two
    symbols nor on their case, and two symbols that are the same letter are
    never weakly diagnostic. *)
Theorem is_weakly_diagnostic_symmetric_caseless (x y : ascii) :
  is_weakly_diagnostic x y = is_weakly_diagnostic y x ∧
  is_weakly_diagnostic (toupper x) y = is_weakly_diagnostic x y ∧
  (toupper x = toupper y → is_weakly_diagnostic x y = false).
Proof.
  unfold is_weakly_diagnostic. split_and!.
  - rewrite (andb_comm (cne x GAP)). f_equal. unfold cne. f_equal.
    apply Ascii.eqb_sym.
  - rewrite toupper_idempotent. unfold cne at 1 4. rewrite toupper_is_gap.
    reflexivity.
  - intros E. rewrite E. replace (cne (toupper y) (toupper y)) with false.
    + apply andb_false_r.
    + symmetry. apply cne_false. reflexivity.
Qed.

(** X5: a gap on either side is consistent with everything, and the
    ancient-DNA flag can change the verdict only for a first character that
    is G or C, in either case. *)
Theorem consistent_gap_and_flag `{Ambiguity} (adna : bool) (x y : ascii) :
  consistent adna GAP y = true ∧
  consistent adna x GAP = true ∧
  (toupper x ≠ "G" → toupper x ≠ "C" → consistent adna x y = consistent false x y).
Proof.
  split_and!.
  - reflexivity.
  - unfold consistent. destruct (ceq x GAP); reflexivity.
  - intros HG HC. unfold consistent.
    destruct (ceq x "G") eqn:E1; [apply ceq_true in E1; subst x; exfalso; apply HG; reflexivity |].
    destruct (ceq x "C") eqn:E2; [apply ceq_true in E2; subst x; exfalso; apply HC; reflexivity |].
    destruct (ceq x "g") eqn:E3; [apply ceq_true in E3; subst x; exfalso; apply HG; reflexivity |].
    destruct (ceq x "c") eqn:E4; [apply ceq_true in E4; subst x; exfalso; apply HC; reflexivity |].
    destruct adna; reflexivity.
Qed.

(** ** Strings *)

Lemma chars_app (a b : string) :
  list_ascii_of_string (a ++ b) = list_ascii_of_string a ++ list_ascii_of_string b.
Proof.
  induction a as [| c a IH]; [reflexivity |].
  change (c :: list_ascii_of_string (a ++ b)
          = c :: (list_ascii_of_string a ++ list_ascii_of_string b)).
  rewrite IH. reflexivity.
Qed.

Lemma string_of_chars_app (a b : list ascii) :
  string_of_list_ascii (a ++ b) = (string_of_list_ascii a ++ string_of_list_ascii b)%string.
Proof.
  induction a as [| c a IH]; [reflexivity |].
  change (String c (string_of_list_ascii (a ++ b))
          = String c (string_of_list_ascii a ++ string_of_list_ascii b)).
  rewrite IH. reflexivity.
Qed.

Lemma chars_length (s : string) : length (list_ascii_of_string s) = String.length s.
Proof. induction s as [| c s IH]; [reflexivity |]. cbn. rewrite IH. reflexivity. Qed.

Lemma existsb_iupac (u : ascii) :
  existsb (ceq u) (list_ascii_of_string "ACGTBDHVMKYRSWUN") = true ↔ u ∈ iupac_letters.
Proof.
  unfold iupac_letters. rewrite existsb_exists. split.
  - intros (x & Hin & E). apply ceq_true in E. subst x.
    apply list_elem_of_In. exact Hin.
  - intros Hin. exists u. split; [apply list_elem_of_In; exact Hin |].
    apply ceq_true. reflexivity.
Qed.

(** X6: a sequence passes the sanity check exactly when each of its
    characters is, in either case, one of the sixteen letters; a sequence
    that passes holds no gap. *)
Theorem sanity_check_sequence_letters (s : string) :
  (sanity_check_sequence s = true ↔
   Forall (λ c, toupper c ∈ iupac_letters) (list_ascii_of_string (c_str s)))
  ∧ (sanity_check_sequence s = true → GAP ∉ list_ascii_of_string (c_str s)).
Proof.
  assert (E : sanity_check_sequence s = true ↔
              Forall (λ c, toupper c ∈ iupac_letters) (list_ascii_of_string (c_str s))).
  { induction s as [| c s IH]; cbn [sanity_check_sequence c_str].
    - split; [intros _; constructor | reflexivity].
    - destruct (ceq c NUL).
      + split; [intros _; constructor | reflexivity].
      + cbn [list_ascii_of_string]. rewrite Forall_cons, <- IH, <- existsb_iupac.
        cbn [list_ascii_of_string].
        destruct (existsb _ _);
          [tauto | split; [discriminate | intros [N _]; discriminate N]]. }
  split; [exact E |].
  intros Hs Hin. apply E in Hs. rewrite Forall_forall in Hs.
  specialize (Hs GAP Hin). apply existsb_iupac in Hs.
  vm_compute in Hs. discriminate Hs.
Qed.

(** X7: a name that ends in [_b] or [_f] loses that ending, and a comma
    before it, when something is left in front; a name of one character
    before the ending is kept as it is.  The two halves of a read get the
    same name either way the ending is cut. *)
Theorem fixup_name_halves (m : string) (c : ascii) :
  fixup_name (m ++ String c "_b") =
    (if is_empty m then String c "_b"
     else if ceq c "," then m else (m ++ String c "")%string)
  ∧ fixup_name (m ++ String c "_f") =
    (if is_empty m then String c "_f"
     else if ceq c "," then m else (m ++ String c "")%string).
Proof.
  assert (G : ∀ h : ascii, ceq h "b" || ceq h "f" = true →
              fixup_name (m ++ String c (String "_" (String h ""))) =
              (if is_empty m then String c (String "_" (String h ""))
               else if ceq c "," then m else (m ++ String c "")%string)).
  { intros h Hh. unfold fixup_name. rewrite chars_app.
    cbn [list_ascii_of_string]. rewrite rev_app_distr. cbn [rev app].
    rewrite length_app, chars_length. cbn [length]. rewrite Hh.
    destruct m as [| c0 m0].
    - reflexivity.
    - cbn [is_empty].
      replace (3 <? Z.of_nat (String.length (String c0 m0) + 3)) with true
        by (symmetry; apply Z.ltb_lt; cbn [String.length]; lia).
      cbn [andb]. replace (ceq "_" "_") with true by reflexivity.
      destruct (ceq c ",").
      + rewrite rev_involutive. apply string_of_list_ascii_of_string.
      + cbn [rev]. rewrite rev_involutive, string_of_chars_app.
        rewrite string_of_list_ascii_of_string. reflexivity. }
  split; apply G; reflexivity.
Qed.

Lemma mia_symbol_alphabet (c : ascii) :
  mia_symbol c ∈ list_ascii_of_string "ACGTN".
Proof. each_char c; vm_compute; repeat constructor. Qed.

Lemma mia_symbol_idempotent (c : ascii) : mia_symbol (mia_symbol c) = mia_symbol c.
Proof. each_char c; reflexivity. Qed.

Lemma mia_symbol_plain (c : ascii) :
  plain_base c = true → mia_symbol c = toupper c.
Proof. unfold plain_base, mia_symbol. cbn zeta. intros ->. reflexivity. Qed.

(** X8: the window that goes to the aligner is as long as the lifted one
    and holds A, C, G, T and N only; a base of the four is kept, in capitals;
    normalising twice changes nothing more. *)
Theorem normalize_for_mia_alphabet (lifted : string) :
  String.length (normalize_for_mia lifted) = String.length lifted ∧
  Forall (λ c, c ∈ list_ascii_of_string "ACGTN")
         (list_ascii_of_string (normalize_for_mia lifted)) ∧
  normalize_for_mia (normalize_for_mia lifted) = normalize_for_mia lifted ∧
  (Forall (λ c, plain_base c = true) (list_ascii_of_string lifted) →
   list_ascii_of_string (normalize_for_mia lifted)
   = map toupper (list_ascii_of_string lifted)).
Proof.
  induction lifted as [| c t (IHlen & IHall & IHidem & IHplain)].
  - split_and!; try reflexivity. constructor.
  - cbn [normalize_for_mia String.length list_ascii_of_string map]. split_and!.
    + rewrite IHlen. reflexivity.
    + constructor; [apply mia_symbol_alphabet | exact IHall].
    + rewrite mia_symbol_idempotent, IHidem. reflexivity.
    + intros Hp. apply Forall_cons in Hp. destruct Hp as [Hc Ht].
      rewrite (mia_symbol_plain c Hc), (IHplain Ht). reflexivity.
Qed.

Lemma the_read_from_no_insertions (i : nat) (seq : string) :
  list_ascii_of_string (the_read_from i seq (λ _, None)) =
  filter (λ c, c ≠ GAP) (list_ascii_of_string (c_str seq)).
Proof.
  revert i. induction seq as [| nt t IH]; intros i; [reflexivity |].
  cbn [the_read_from c_str]. destruct (ceq nt NUL); [reflexivity |].
  cbn [list_ascii_of_string]. destruct (cne nt GAP) eqn:E.
  - apply cne_true in E. rewrite filter_cons_True by exact E.
    cbn [list_ascii_of_string]. rewrite IH. reflexivity.
  - apply cne_false in E. rewrite filter_cons_False by (intros N; apply N; exact E).
    apply IH.
Qed.

(** X9: the read that is rebuilt from an aligned fragment holds no gap when
    its insertions hold none, and without insertions it is the aligned
    sequence with the gaps taken out. *)
Theorem the_read_without_gaps (seq : string) (ins : nat → option string) :
  list_ascii_of_string (the_read seq (λ _, None))
  = filter (λ c, c ≠ GAP) (list_ascii_of_string (c_str seq))
  ∧ ((∀ i inserted, ins i = Some inserted →
        GAP ∉ list_ascii_of_string (c_str inserted)) →
     GAP ∉ list_ascii_of_string (the_read seq ins)).
Proof.
  split; [apply the_read_from_no_insertions |].
  intros Hins. unfold the_read. generalize O.
  induction seq as [| nt t IH]; intros i; [cbn; apply not_elem_of_nil |].
  cbn [the_read_from]. destruct (ceq nt NUL); [cbn; apply not_elem_of_nil |].
  assert (Htail : GAP ∉ list_ascii_of_string
                    (match ins i with
                     | Some inserted => (c_str inserted ++ the_read_from (S i) t ins)%string
                     | None => the_read_from (S i) t ins
                     end)).
  { destruct (ins i) as [inserted |] eqn:Ei; [| apply IH].
    rewrite chars_app, elem_of_app. intros [Hin | Hin].
    - exact (Hins i inserted Ei Hin).
    - exact (IH (S i) Hin). }
  destruct (cne nt GAP) eqn:E; [| exact Htail].
  cbn [list_ascii_of_string]. rewrite elem_of_cons. intros [Heq | Hin].
  - apply cne_true in E. apply E. symmetry. exact Heq.
  - exact (Htail Hin).
Qed.

(** ** The lifted window *)

Lemma numbered_from (p : Z) (cols : list (ascii * ascii)) :
  Forall (λ x : Z * (ascii * ascii), p ≤ x.1) (numbered p cols).
Proof.
  revert p. induction cols as [| col more IH]; intros p; [constructor |].
  cbn [numbered]. constructor; [cbn; lia |].
  eapply Forall_impl; [apply IH |]. cbn. intros x Hx.
  destruct (cne col.2 GAP); lia.
Qed.

Lemma filter_none {A : Type} (P : A → Prop) `{∀ x, Decision (P x)} (l : list A) :
  Forall (λ x, ¬ P x) l → filter P l = [].
Proof.
  induction 1 as [| x l Hx Hl IH]; [reflexivity |].
  rewrite filter_cons_False by exact Hx. exact IH.
Qed.

Lemma lift_over_at_columns (p : Z) (aln1 aln2 : string) (s e : Z) :
  list_ascii_of_string (lift_over_at p aln1 aln2 s e) =
  map (λ x : Z * (ascii * ascii), x.2.1)
      (filter (λ x : Z * (ascii * ascii), s ≤ x.1 < e ∧ x.2.1 ≠ GAP)
              (numbered p (columns aln1 aln2))).
Proof.
  revert aln2 p. induction aln1 as [| c1 t1 IH]; intros aln2 p.
  - destruct aln2; reflexivity.
  - destruct aln2 as [| c2 t2]; [reflexivity |].
    cbn [lift_over_at columns].
    destruct (cne c1 NUL); [| rewrite andb_false_r; reflexivity].
    destruct (cne c2 NUL); [| rewrite andb_false_r; reflexivity].
    rewrite !andb_true_r. cbn [andb numbered snd].
    destruct (p <? e) eqn:Ep.
    + apply Z.ltb_lt in Ep.
      destruct (cne c1 GAP && (s <=? p)) eqn:Ec.
      * apply andb_true_iff in Ec. destruct Ec as [Eg Es].
        apply cne_true in Eg. apply Z.leb_le in Es.
        rewrite filter_cons_True by (cbn; split; [lia | exact Eg]).
        cbn [list_ascii_of_string map fst snd]. rewrite IH. reflexivity.
      * rewrite filter_cons_False; [apply IH |].
        cbn. intros [Hr Hg]. apply andb_false_iff in Ec.
        destruct Ec as [Ec | Ec].
        -- apply cne_false in Ec. contradiction.
        -- apply Z.leb_gt in Ec. lia.
    + apply Z.ltb_ge in Ep. cbn [list_ascii_of_string].
      rewrite filter_cons_False by (cbn; lia).
      rewrite filter_none; [reflexivity |].
      eapply Forall_impl; [apply numbered_from |].
      cbn. intros x Hx [Hr _]. destruct (cne c2 GAP); lia.
Qed.

(** X10: the lifted window is made of the contaminant symbols, gaps left
    out, of the columns that the scan reaches at an assembly coordinate from
    [s] up to [e], in their order; it holds no gap, and it is empty when [e]
    is not above [s]. *)
Theorem lift_over_columns (aln1 aln2 : string) (s e : Z) :
  list_ascii_of_string (lift_over aln1 aln2 s e) =
    map (λ x : Z * (ascii * ascii), x.2.1)
        (filter (λ x : Z * (ascii * ascii), s ≤ x.1 < e ∧ x.2.1 ≠ GAP)
                (numbered 0 (columns aln1 aln2)))
  ∧ (GAP ∉ list_ascii_of_string (lift_over aln1 aln2 s e))
  ∧ (e ≤ s → lift_over aln1 aln2 s e = EmptyString).
Proof.
  unfold lift_over.
  pose proof (lift_over_at_columns 0 aln1 aln2 s e) as E.
  split; [exact E |]. split.
  - rewrite E. intros Hin. apply list_elem_of_fmap in Hin.
    destruct Hin as (x & Hx & Hin). apply list_elem_of_filter in Hin.
    destruct Hin as [[_ Hg] _]. apply Hg. symmetry. exact Hx.
  - intros Hes.
    assert (Hnil : list_ascii_of_string (lift_over_at 0 aln1 aln2 s e) = []).
    { rewrite E, filter_none; [reflexivity |].
      apply Forall_forall. intros x _ [Hr _]. lia. }
    destruct (lift_over_at 0 aln1 aln2 s e); [reflexivity | discriminate Hnil].
Qed.

(** ** The index through pass one and the pruning *)

Lemma prune_filter (l : dp_list) :
  prune l = filter (λ kv : Z * Dp, strength kv.2 ≠ weak) l.
Proof.
  apply map_eq. intros c. apply option_eq. intros d.
  rewrite map_lookup_filter_Some, prune_lookup. cbn.
  destruct (l !! c) as [d0 |]; [| split; [discriminate | intros [E _]; discriminate E]].
  case_bool_decide as Hw.
  - split; [discriminate |]. intros [[= ->] N]. contradiction.
  - split; [intros [= ->]; auto | intros [E _]; exact E].
Qed.

Lemma num_strong_not_weak (l : dp_list) :
  num_strong l = Z.of_nat (size (filter (λ kv : Z * Dp, strength kv.2 ≠ weak) l)).
Proof.
  unfold num_strong. f_equal. f_equal. apply map_filter_ext.
  intros c d _. cbn. destruct (strength d); cbn; split; intros E;
    try lia; try discriminate; try (exfalso; apply E; reflexivity).
Qed.

(** X11: the pruning loop is the filter that keeps the entries that are not
    weak; pruning twice is pruning once, and the pruned index has as many
    entries as the safety check counts in the index before. *)
Theorem prune_is_filter (l : dp_list) :
  prune l = filter (λ kv : Z * Dp, strength kv.2 ≠ weak) l ∧
  prune (prune l) = prune l ∧
  Z.of_nat (size (prune l)) = num_strong l.
Proof.
  split_and!.
  - apply prune_filter.
  - apply map_eq. intros c. rewrite !prune_lookup.
    destruct (l !! c) as [d |]; [| reflexivity].
    destruct (bool_decide (strength d = weak)) eqn:E; [reflexivity |].
    rewrite E. reflexivity.
  - rewrite num_strong_not_weak, prune_filter. reflexivity.
Qed.

Section PassOne.
Context `{Ambiguity}.
Variable adna : bool.
Variables aln_con aln_ass assembly_seq : string.

Lemma pass1_fixed (frags : list (AlnSeq * cached_pwaln)) (l : dp_list) (c : Z) (d : Dp) :
  l !! c = Some d → strength d ≠ weak →
  pass1 adna aln_con aln_ass assembly_seq frags l !! c = Some d.
Proof.
  intros Hd Hs.
  pose proof (pass1_ratcheted adna aln_con aln_ass assembly_seq frags l c) as R.
  rewrite Hd in R.
  destruct (pass1 adna aln_con aln_ass assembly_seq frags l !! c) as [d' |];
    [| inversion R].
  assert (Rd : ratchet adna d d') by (inversion R; assumption).
  rewrite (ratchet_fixed adna d d' Rd Hs). reflexivity.
Qed.

(** X12: pass one changes nothing in an index without weak entries, so a
    second pass one after the pruning leaves the index, and with it pass
    two, as it is. *)
Theorem pass1_after_prune (frags : list (AlnSeq * cached_pwaln)) (l : dp_list) :
  pass1 adna aln_con aln_ass assembly_seq frags (prune l) = prune l.
Proof.
  apply map_eq. intros c.
  destruct (prune l !! c) as [d |] eqn:Hd.
  - apply pass1_fixed; [exact Hd |].
    destruct (prune_leaves_no_weak_entry l c d Hd) as [E | E]; rewrite E; discriminate.
  - apply pass1_same_coordinates. exact Hd.
Qed.

(** X13: pass one keeps the number of positions, and the number of those
    that are not weak never goes down; an index that passed the safety floor
    still has its 40 positions afterwards. *)
Theorem pass1_counts (frags : list (AlnSeq * cached_pwaln)) (l : dp_list) :
  size (pass1 adna aln_con aln_ass assembly_seq frags l) = size l ∧
  num_strong l ≤ num_strong (pass1 adna aln_con aln_ass assembly_seq frags l).
Proof.
  split.
  - rewrite <- !size_dom. f_equal. apply set_eq. intros c.
    rewrite !elem_of_dom, <- !not_eq_None_Some.
    rewrite (pass1_same_coordinates adna aln_con aln_ass assembly_seq frags l c).
    reflexivity.
  - rewrite !num_strong_not_weak. apply inj_le, map_subseteq_size.
    apply map_subseteq_spec. intros c d Hd.
    apply map_lookup_filter_Some in Hd. destruct Hd as [Hd Hs].
    apply map_lookup_filter_Some. split; [| exact Hs].
    apply pass1_fixed; assumption.
Qed.

End PassOne.

(** ** What a fragment can reach *)

(** The walk stays inside the span of the fragment: [visit] is called at
    coordinates from the start of the walk up to [s_end] only. *)
Lemma walk_preserves_in_span {St : Type} (P : St → Prop)
    (visit : Z → ascii → ascii → St → St) (lo s_end : Z) :
  (∀ pos fr fa st, lo ≤ pos ≤ s_end → P st → P (visit pos fr fa st)) →
  ∀ paln1 paln2 ass_pos in_ref in_ass in_frag_v_ass in_frag_v_ref st,
    lo ≤ ass_pos ≤ s_end + 1 →
    P st →
    P (walk visit s_end paln1 paln2 ass_pos in_ref in_ass in_frag_v_ass
         in_frag_v_ref st).
Proof.
  intros Hvisit paln1.
  induction paln1 as [| c1 t1 IH];
    intros paln2 ass_pos in_ref in_ass fva fvr st Hpos Hst.
  - exact Hst.
  - destruct paln2 as [| c2 t2]; [exact Hst |]. cbn [walk].
    destruct (bool_decide (ass_pos ≠ s_end + 1)) eqn:Eend; [| exact Hst].
    apply bool_decide_eq_true in Eend. cbn [andb].
    destruct (_ && _); [| exact Hst].
    destruct (if cne c1 GAP then _ else _) as [in_ref' fvr'].
    destruct (if cne c2 GAP then _ else _) as [in_ass' fva'].
    apply IH.
    + destruct (cne c2 GAP); lia.
    + destruct (is_weakly_diagnostic c1 c2); [| exact Hst].
      apply Hvisit; [lia | exact Hst].
Qed.

Lemma seek_stops (target : Z) (aln1 aln2 : string) (index : Z) :
  ∃ i p1 p2, seek target aln1 aln2 index = (i, p1, p2) ∧
             (i = target ∨ columns p1 p2 = []).
Proof.
  revert aln2 index. induction aln1 as [| c1 t1 IH]; intros aln2 index.
  - exists index, EmptyString, aln2. split; [destruct aln2; reflexivity |].
    right. destruct aln2; reflexivity.
  - destruct aln2 as [| c2 t2].
    + exists index, (String c1 t1), EmptyString. split; [reflexivity |].
      right. reflexivity.
    + cbn [seek]. case_bool_decide as Ht; cbn [andb].
      * destruct (cne c1 NUL && cne c2 NUL) eqn:E.
        -- apply IH.
        -- eexists _, _, _. split; [reflexivity |]. right.
           cbn [columns]. rewrite E. reflexivity.
      * eexists _, _, _. split; [reflexivity |]. left.
        destruct (decide (index = target)) as [E | N]; [exact E | contradiction].
Qed.

Lemma walk_no_columns {St : Type} (visit : Z → ascii → ascii → St → St) (s_end : Z)
    (paln1 paln2 : string) (ass_pos : Z)
    (in_ref in_ass in_frag_v_ass in_frag_v_ref : string) (st : St) :
  columns paln1 paln2 = [] →
  walk visit s_end paln1 paln2 ass_pos in_ref in_ass in_frag_v_ass in_frag_v_ref st
  = st.
Proof.
  destruct paln1 as [| c1 t1]; [reflexivity |].
  destruct paln2 as [| c2 t2]; [reflexivity |].
  cbn [columns walk]. destruct (cne c1 NUL && cne c2 NUL) eqn:E; [discriminate |].
  intros _. apply andb_false_iff in E.
  destruct (bool_decide (ass_pos ≠ s_end + 1)); [| reflexivity]. cbn [andb].
  destruct E as [-> | ->]; [reflexivity |].
  destruct (cne c1 NUL); reflexivity.
Qed.

Lemma walk_fragment_in_span {St : Type} (P : St → Prop)
    (visit : Z → ascii → ascii → St → St)
    (aln_con aln_ass assembly_seq : string) (extra : Z)
    (s : AlnSeq) (pw : cached_pwaln) (st : St) :
  a_start s ≤ a_end s + 1 →
  (∀ pos fr fa st, a_start s ≤ pos ≤ a_end s → P st → P (visit pos fr fa st)) →
  P st →
  P (walk_fragment aln_con aln_ass assembly_seq visit extra s pw st).
Proof.
  intros Hspan Hvisit Hst. unfold walk_fragment.
  destruct (seek_stops (a_start s) aln_con aln_ass 0) as (i & p1 & p2 & -> & Hi).
  destruct Hi as [-> | Hnone].
  - apply (walk_preserves_in_span P visit (a_start s)); [exact Hvisit | lia | exact Hst].
  - rewrite walk_no_columns by exact Hnone. exact Hst.
Qed.

(** X14: in pass one a fragment whose span is not reversed changes the
    index at coordinates of its own span only. *)
Theorem pass1_fragment_frame `{Ambiguity} (adna : bool)
    (aln_con aln_ass assembly_seq : string) (l : dp_list)
    (f : AlnSeq * cached_pwaln) (c : Z) :
  a_start f.1 ≤ a_end f.1 + 1 →
  c < a_start f.1 ∨ a_end f.1 < c →
  pass1_fragment adna aln_con aln_ass assembly_seq l f !! c = l !! c.
Proof.
  intros Hspan Hout. unfold pass1_fragment.
  apply (walk_fragment_in_span (λ st : dp_list, st !! c = l !! c));
    [exact Hspan | | reflexivity].
  intros pos fr fa st Hpos Hst. rewrite <- Hst. unfold pass1_visit.
  destruct (st !! pos) as [d |]; [| reflexivity].
  destruct (cne fr fa); [reflexivity |].
  destruct (_ && _); [| reflexivity].
  apply lookup_insert_ne. lia.
Qed.

Lemma pass1_fragment_frame_witness :
  pass1_fragment false ex_contaminant ex_assembly ex_assembly
    (mk_dp_list ex_contaminant ex_assembly 0 INT_MAX) ex_front !! 0
  = Some (mkDp "R" "A" NUL weak).
Proof.
  rewrite (pass1_fragment_frame false ex_contaminant ex_assembly ex_assembly
             (mk_dp_list ex_contaminant ex_assembly 0 INT_MAX) ex_front 0).
  - reflexivity.
  - cbn. lia.
  - left. cbn. lia.
Defined.

(** ** The tallies of a fragment *)

Section Tallies.
Context `{Ambiguity}.

Lemma pass2_visit_ok (adna : bool) (l : dp_list) (pos : Z) (fr fa : ascii) (t : tally) :
  tally_ok t → tally_ok (pass2_visit adna l pos fr fa t).
Proof.
  intros Ht. unfold pass2_visit.
  destruct (l !! pos) as [d |]; [| exact Ht].
  destruct (cne fr fa); [exact Ht |].
  destruct t as [k v k2 v2]. unfold tally_ok in *. cbn [klass votes klass2 votes2] in *.
  destruct (consistent adna (assembly d) fa), (consistent adna (consensus d) fr),
    (bool_decide (strength d = strong)), k, k2;
    cbn; intuition (try lia; try discriminate; try congruence).
Qed.

Lemma classify_ok (adna : bool) (aln_con aln_ass assembly_seq : string)
    (min_posns : Z) (l : dp_list) (s : AlnSeq) (pw : cached_pwaln) :
  tally_ok (classify adna aln_con aln_ass assembly_seq min_posns l s pw).
Proof.
  assert (H0 : tally_ok tally_zero).
  { unfold tally_ok, tally_zero. cbn. intuition (try lia; try discriminate). }
  unfold classify. destruct (_ <? _); [exact H0 |].
  unfold walk_fragment. destruct (seek _ _ _ _) as [[ass_pos paln1] paln2].
  apply (walk_preserves tally_ok); [| exact H0].
  intros pos fr fa st. apply pass2_visit_ok.
Qed.

(** X15: for every fragment and every index, the strong-only tally never
    has more votes than the other one; an unclassified tally has no vote, a
    tally without a vote is unclassified or nonsensical, and a fragment that
    is nonsensical on its strong positions is nonsensical on all of them. *)
Theorem classify_tallies (adna : bool) (aln_con aln_ass assembly_seq : string)
    (min_posns : Z) (l : dp_list) (s : AlnSeq) (pw : cached_pwaln) :
  let t := classify adna aln_con aln_ass assembly_seq min_posns l s pw in
  0 ≤ votes t ≤ votes2 t ∧
  (klass t = unknown → votes t = 0) ∧
  (klass2 t = unknown → votes2 t = 0) ∧
  (votes t = 0 → klass t = unknown ∨ klass t = nonsense) ∧
  (votes2 t = 0 → klass2 t = unknown ∨ klass2 t = nonsense) ∧
  (klass t = nonsense → klass2 t = nonsense).
Proof.
  cbn zeta.
  pose proof (classify_ok adna aln_con aln_ass assembly_seq min_posns l s pw) as Hok.
  unfold tally_ok in Hok. tauto.
Qed.

End Tallies.

(** ** The index that a run reports *)

Section Report.
Context `{Ambiguity}.

Lemma collect_entries (upto : Z) (aln1 aln2 : string) (index : Z) (l : dp_list) :
  (∀ c d, l !! c = Some d →
     is_weakly_diagnostic (consensus d) (assembly d) = true ∧
     strength d = if is_strongly_diagnostic (consensus d) (assembly d)
                  then strong else weak) →
  ∀ c d, collect upto aln1 aln2 index l !! c = Some d →
     is_weakly_diagnostic (consensus d) (assembly d) = true ∧
     strength d = if is_strongly_diagnostic (consensus d) (assembly d)
                  then strong else weak.
Proof.
  revert aln2 index l.
  induction aln1 as [| c1 t1 IH]; intros aln2 index l Hl.
  - destruct aln2; exact Hl.
  - destruct aln2 as [| c2 t2]; [exact Hl |]. cbn [collect].
    destruct (_ && _); [| exact Hl].
    apply IH. destruct (is_weakly_diagnostic c1 c2) eqn:Ew; [| exact Hl].
    intros c d. unfold dp_assign.
    destruct (decide (index = c)) as [-> | Hne].
    + rewrite lookup_insert_eq. intros [= <-]. cbn. auto.
    + rewrite lookup_insert_ne by exact Hne. apply Hl.
Qed.

Lemma mk_dp_list_entries (aln1 aln2 : string) (from upto c : Z) (d : Dp) :
  mk_dp_list aln1 aln2 from upto !! c = Some d →
  is_weakly_diagnostic (consensus d) (assembly d) = true ∧
  strength d = if is_strongly_diagnostic (consensus d) (assembly d)
               then strong else weak.
Proof.
  unfold mk_dp_list. destruct (seek from aln1 aln2 0) as [[index p1] p2].
  apply collect_entries. intros c' d'. rewrite lookup_empty. discriminate.
Qed.

(** X16: every entry of the index that a run reports is a column of the
    global alignment whose two symbols are no gaps and differ; it is strong
    when the symbols are incompatible, and otherwise it is effective and
    carries a contaminant base that is inconsistent with the assembly symbol
    and consistent with the contaminant symbol. *)
Theorem report_entries (opts : options) (contaminant_seq assembly_seq : string)
    (aln_con aln_ass : string) (frags : list (AlnSeq * cached_pwaln))
    (l : dp_list) (s1 s2 : list Z) (c : Z) (d : Dp) :
  check_file opts contaminant_seq assembly_seq (Some (aln_con, aln_ass)) frags
    = Report l s1 s2 →
  l !! c = Some d →
  is_weakly_diagnostic (consensus d) (assembly d) = true ∧
  ((strength d = strong ∧
    is_strongly_diagnostic (consensus d) (assembly d) = true)
   ∨ (strength d = effective ∧
      is_strongly_diagnostic (consensus d) (assembly d) = false ∧
      consistent (adna opts) (assembly d) (contaminant d) = false ∧
      consistent (adna opts) (consensus d) (contaminant d) = true)).
Proof.
  unfold check_file. destruct (negb _ || negb _); [discriminate |].
  destruct (_ && negb _); [discriminate |].
  unfold classify_all. intros [= <- _ _]. rewrite prune_lookup.
  set (l0 := mk_dp_list aln_con aln_ass (span_from opts) (span_to opts)).
  pose proof (pass1_ratcheted (adna opts) aln_con aln_ass assembly_seq
                (map (fixup) frags) l0 c) as R.
  destruct (pass1 (adna opts) aln_con aln_ass assembly_seq (map fixup frags) l0 !! c)
    as [d1 |]; [| discriminate].
  case_bool_decide as Hw; [discriminate |]. intros E.
  assert (E1 : d = d1) by congruence. clear E. rewrite E1 in *. clear E1 d.
  destruct (l0 !! c) as [d0 |] eqn:Hd0; [| inversion R].
  assert (Rd : ratchet (adna opts) d0 d1) by (inversion R; assumption).
  destruct (mk_dp_list_entries _ _ _ _ _ _ Hd0) as [Hwd Hst].
  destruct Rd as [-> | (Hw0 & Hd & Hc & Hm)].
  - split; [exact Hwd |]. left.
    destruct (is_strongly_diagnostic (consensus d0) (assembly d0));
      [auto | contradiction].
  - assert (Ec : consensus d1 = consensus d0) by (rewrite Hd; reflexivity).
    assert (Ea : assembly d1 = assembly d0) by (rewrite Hd; reflexivity).
    assert (Es : strength d1 = effective) by (rewrite Hd; reflexivity).
    rewrite Ec, Ea. split; [exact Hwd |]. right.
    split; [exact Es |]. split; [| split; assumption].
    destruct (is_strongly_diagnostic (consensus d0) (assembly d0));
      [rewrite Hst in Hw0; discriminate Hw0 | reflexivity].
Qed.

End Report.

Lemma report_entries_witness :
  is_weakly_diagnostic "R" "A" = true ∧
  ((effective = strong ∧ is_strongly_diagnostic "R" "A" = true)
   ∨ (effective = effective ∧ is_strongly_diagnostic "R" "A" = false ∧
      consistent false "A" "G" = false ∧ consistent false "R" "G" = true)).
Proof.
  exact (report_entries ex_options ex_contaminant ex_assembly ex_contaminant
           ex_assembly ex_reads ex_index [2; 0; 0; 0; 0] [0; 0; 2; 0; 0] 0
           (mkDp "R" "A" "G" effective) eq_refl eq_refl).
Defined.

(** ** The summaries *)

Lemma total_alter (i : nat) (l : list Z) :
  (i < length l)%nat → total (alter Z.succ i l) = total l + 1.
Proof.
  revert i. induction l as [| x l IH]; intros i Hi; [cbn in Hi; lia |].
  destruct i as [| i]; cbn.
  - unfold total. cbn. lia.
  - unfold total in *. cbn. cbn in Hi. rewrite IH by lia. lia.
Qed.

Lemma whatsit_index_bound (k : whatsit) : k ≠ maxwhatsits → (whatsit_index k < 5)%nat.
Proof. destruct k; cbn; intros N; try lia. contradiction. Qed.

Lemma merge_whatsit_not_max (a b : whatsit) :
  a ≠ maxwhatsits → b ≠ maxwhatsits → merge_whatsit a b ≠ maxwhatsits.
Proof. destruct a, b; cbn; intros Ha Hb; try discriminate; contradiction. Qed.

Lemma counted_fixup (f : AlnSeq * cached_pwaln) : counted (fixup f) = counted f.
Proof. reflexivity. Qed.

Lemma counted_after_fixup (frags : list (AlnSeq * cached_pwaln)) :
  length (filter (λ f, counted f = true) (map fixup frags))
  = length (filter (λ f, counted f = true) frags).
Proof.
  induction frags as [| f frags IH]; [reflexivity |].
  cbn [map]. destruct (counted f) eqn:E.
  - rewrite !filter_cons_True by (rewrite ?counted_fixup; exact E).
    cbn [length]. rewrite IH. reflexivity.
  - rewrite !filter_cons_False by (rewrite ?counted_fixup, E; discriminate).
    exact IH.
Qed.

(** What the loop of pass two keeps: two summaries of five counters that
    add up to the number of counted fragments, and no stored back half with
    a class outside the five. *)
Lemma count_fragment_totals (s : AlnSeq) (pw : cached_pwaln) (t : tally) (c : counts) (n : Z) :
  klass t ≠ maxwhatsits → klass2 t ≠ maxwhatsits →
  length (summary c) = 5%nat → length (summary2 c) = 5%nat →
  total (summary c) = n → total (summary2 c) = n →
  (∀ name r, bfrags c !! name = Some r → r.1 ≠ maxwhatsits) →
  let c' := count_fragment s t c in
  let n' := if counted (s, pw) then n + 1 else n in
  length (summary c') = 5%nat ∧ length (summary2 c') = 5%nat ∧
  total (summary c') = n' ∧ total (summary2 c') = n' ∧
  (∀ name r, bfrags c' !! name = Some r → r.1 ≠ maxwhatsits).
Proof.
  intros Hk Hk2 Hl1 Hl2 Ht1 Ht2 Hb. cbn zeta.
  assert (Hin : ∀ t0 : tally, klass t0 ≠ maxwhatsits → klass2 t0 ≠ maxwhatsits →
            length (summary (count_in t0 c)) = 5%nat ∧
            length (summary2 (count_in t0 c)) = 5%nat ∧
            total (summary (count_in t0 c)) = n + 1 ∧
            total (summary2 (count_in t0 c)) = n + 1 ∧
            (∀ name r, bfrags (count_in t0 c) !! name = Some r → r.1 ≠ maxwhatsits)).
  { intros t0 H1 H2. unfold count_in. cbn [summary summary2 bfrags].
    rewrite !length_alter.
    rewrite !total_alter by (rewrite ?Hl1, ?Hl2; apply whatsit_index_bound; assumption).
    rewrite Ht1, Ht2. auto. }
  unfold count_fragment, counted. cbn [fst].
  destruct (ceq (segment s) "b") eqn:Eb.
  - apply ceq_true in Eb. rewrite Eb. cbn [summary summary2 bfrags].
    replace (ceq "b" "a" || ceq "b" "f") with false by reflexivity.
    split_and!; try assumption.
    intros name r. destruct (decide (id s = name)) as [<- | Hne].
    + rewrite lookup_insert_eq. intros [= <-]. exact Hk.
    + rewrite lookup_insert_ne by exact Hne. apply Hb.
  - destruct (ceq (segment s) "f") eqn:Ef.
    + rewrite orb_true_r. apply Hin; unfold merge_front.
      * destruct (bfrags c !! id s) as [b |] eqn:Ei.
        -- destruct (bfrags2 c !! id s); cbn; apply merge_whatsit_not_max;
             try exact Hk; exact (Hb _ _ Ei).
        -- destruct (bfrags2 c !! id s); cbn; exact Hk.
      * destruct (bfrags c !! id s) as [b |] eqn:Ei.
        -- destruct (bfrags2 c !! id s); cbn; [| exact Hk2].
           apply merge_whatsit_not_max; [exact Hk2 | exact (Hb _ _ Ei)].
        -- destruct (bfrags2 c !! id s); cbn; exact Hk2.
    + rewrite orb_false_r. destruct (ceq (segment s) "a").
      * apply Hin; assumption.
      * split_and!; assumption.
Qed.

Section Summaries.
Context `{Ambiguity}.

Lemma pass2_totals (opts : options) (assembly_seq aln_con aln_ass : string)
    (l : dp_list) (frags : list (AlnSeq * cached_pwaln)) (c : counts) (n : Z) :
  length (summary c) = 5%nat → length (summary2 c) = 5%nat →
  total (summary c) = n → total (summary2 c) = n →
  (∀ name r, bfrags c !! name = Some r → r.1 ≠ maxwhatsits) →
  let c' := fold_left (pass2_fragment opts assembly_seq aln_con aln_ass l) frags c in
  total (summary c') = n + Z.of_nat (length (filter (λ f, counted f = true) frags)) ∧
  total (summary2 c') = n + Z.of_nat (length (filter (λ f, counted f = true) frags)).
Proof.
  revert c n. induction frags as [| f frags IH]; intros c n Hl1 Hl2 Ht1 Ht2 Hb.
  - cbn. split; lia.
  - cbn [fold_left]. cbn zeta.
    pose proof (classify_ok (adna opts) aln_con aln_ass assembly_seq
                  (min_diag_posns opts) l f.1 f.2) as Hok.
    destruct Hok as (_ & Hk & Hk2 & _).
    destruct (count_fragment_totals f.1 f.2 _ c n Hk Hk2 Hl1 Hl2 Ht1 Ht2 Hb)
      as (Hl1' & Hl2' & Ht1' & Ht2' & Hb').
    specialize (IH _ _ Hl1' Hl2' Ht1' Ht2' Hb'). cbn zeta in IH.
    unfold pass2_fragment at 2 4.
    replace (f.1, f.2) with f in IH by (destruct f; reflexivity).
    destruct IH as [IH1 IH2]. rewrite IH1, IH2.
    destruct (counted f) eqn:E.
    + rewrite filter_cons_True by exact E. cbn [length]. split; lia.
    + rewrite filter_cons_False by (rewrite E; discriminate). split; lia.
Qed.

(** X17: in the report of a run the counters of each summary add up to the
    number of whole reads and front halves among the fragments: each of them
    is counted once in each summary, and a back half or a fragment of another
    kind is never counted by itself. *)
Theorem report_counts_fragments (opts : options) (contaminant_seq assembly_seq : string)
    (global : option (string * string)) (frags : list (AlnSeq * cached_pwaln))
    (l : dp_list) (s1 s2 : list Z) :
  check_file opts contaminant_seq assembly_seq global frags = Report l s1 s2 →
  total s1 = Z.of_nat (length (filter (λ f, counted f = true) frags)) ∧
  total s2 = Z.of_nat (length (filter (λ f, counted f = true) frags)).
Proof.
  unfold check_file. destruct (negb _ || negb _); [discriminate |].
  destruct global as [[aln_con aln_ass] |]; [| discriminate].
  destruct (_ && negb _); [discriminate |].
  unfold classify_all, pass2. intros [= _ <- <-].
  rewrite <- counted_after_fixup.
  apply (pass2_totals opts assembly_seq aln_con aln_ass _ (map fixup frags)
           counts_zero 0); try reflexivity.
  intros name r. cbn. rewrite lookup_empty. discriminate.
Qed.

End Summaries.

Lemma report_counts_fragments_witness :
  total [2; 0; 0; 0; 0] = 2 ∧ total [0; 0; 2; 0; 0] = 2.
Proof.
  exact (report_counts_fragments ex_options ex_contaminant ex_assembly
           (Some (ex_contaminant, ex_assembly)) ex_reads ex_index
           [2; 0; 0; 0; 0] [0; 0; 2; 0; 0] eq_refl).
Defined.

(** ** A contaminant that equals the assembly *)

Section Identical.
Context `{Ambiguity}.

Lemma is_weakly_diagnostic_same (x : ascii) : is_weakly_diagnostic x x = false.
Proof.
  unfold is_weakly_diagnostic.
  replace (cne (toupper x) (toupper x)) with false; [apply andb_false_r |].
  symmetry. apply cne_false. reflexivity.
Qed.

Lemma seek_same (target : Z) (aln : string) (index : Z) :
  ∃ i rest, seek target aln aln index = (i, rest, rest).
Proof.
  revert index. induction aln as [| c t IH]; intros index.
  - exists index, EmptyString. reflexivity.
  - cbn [seek]. destruct (_ && _); [apply IH |]. eauto.
Qed.

Lemma collect_same (upto : Z) (aln : string) (index : Z) (l : dp_list) :
  collect upto aln aln index l = l.
Proof.
  revert index l. induction aln as [| c t IH]; intros index l; [reflexivity |].
  cbn [collect]. destruct (_ && _); [| reflexivity].
  rewrite is_weakly_diagnostic_same. apply IH.
Qed.

Lemma mk_dp_list_same (aln : string) (from upto : Z) : mk_dp_list aln aln from upto = ∅.
Proof.
  unfold mk_dp_list. destruct (seek_same from aln 0) as (i & rest & ->).
  apply collect_same.
Qed.

Lemma pass1_empty (adna : bool) (aln_con aln_ass assembly_seq : string)
    (frags : list (AlnSeq * cached_pwaln)) :
  pass1 adna aln_con aln_ass assembly_seq frags ∅ = ∅.
Proof.
  apply map_eq. intros c. rewrite lookup_empty.
  apply pass1_same_coordinates. apply lookup_empty.
Qed.

Lemma prune_empty : prune ∅ = ∅.
Proof.
  apply map_eq. intros c. rewrite prune_lookup, lookup_empty. reflexivity.
Qed.

Lemma classify_empty (adna : bool) (aln_con aln_ass assembly_seq : string)
    (min_posns : Z) (s : AlnSeq) (pw : cached_pwaln) :
  classify adna aln_con aln_ass assembly_seq min_posns ∅ s pw = tally_zero.
Proof.
  unfold classify. destruct (_ <? _); [reflexivity |].
  unfold walk_fragment. destruct (seek _ _ _ _) as [[ass_pos paln1] paln2].
  apply (walk_preserves (λ t, t = tally_zero)); [| reflexivity].
  intros pos fr fa st ->. unfold pass2_visit. rewrite lookup_empty. reflexivity.
Qed.

Lemma count_fragment_zero (s : AlnSeq) (pw : cached_pwaln) (c : counts) (n : Z) :
  summary c = [n; 0; 0; 0; 0] → summary2 c = [n; 0; 0; 0; 0] →
  (∀ name r, bfrags c !! name = Some r → r = (unknown, 0)) →
  ∃ c', count_fragment s tally_zero c = c' ∧
        summary c' = [(if counted (s, pw) then n + 1 else n); 0; 0; 0; 0] ∧
        summary2 c' = [(if counted (s, pw) then n + 1 else n); 0; 0; 0; 0] ∧
        (∀ name r, bfrags c' !! name = Some r → r = (unknown, 0)).
Proof.
  intros Hs1 Hs2 Hb. eexists. split; [reflexivity |].
  assert (Hfront : merge_front tally_zero (bfrags c !! id s) (bfrags2 c !! id s)
                   = tally_zero).
  { unfold merge_front. destruct (bfrags c !! id s) as [b |] eqn:Ei.
    - rewrite (Hb _ _ Ei). destruct (bfrags2 c !! id s); reflexivity.
    - destruct (bfrags2 c !! id s); reflexivity. }
  unfold count_fragment, counted. cbn [fst]. rewrite Hfront.
  destruct (ceq (segment s) "b") eqn:Eb.
  - apply ceq_true in Eb. rewrite Eb. cbn [summary summary2 bfrags].
    replace (ceq "b" "a" || ceq "b" "f") with false by reflexivity.
    split_and!; try assumption.
    intros name r. destruct (decide (id s = name)) as [<- | Hne].
    + rewrite lookup_insert_eq. intros [= <-]. reflexivity.
    + rewrite lookup_insert_ne by exact Hne. apply Hb.
  - destruct (ceq (segment s) "f") eqn:Ef.
    + rewrite orb_true_r. unfold count_in. cbn [summary summary2 bfrags klass klass2 tally_zero].
      rewrite Hs1, Hs2. split_and!; try reflexivity. exact Hb.
    + rewrite orb_false_r. destruct (ceq (segment s) "a").
      * unfold count_in. cbn [summary summary2 bfrags klass klass2 tally_zero].
        rewrite Hs1, Hs2. split_and!; try reflexivity. exact Hb.
      * split_and!; assumption.
Qed.

Lemma pass2_empty (opts : options) (assembly_seq aln_con aln_ass : string)
    (frags : list (AlnSeq * cached_pwaln)) (c : counts) (n : Z) :
  summary c = [n; 0; 0; 0; 0] → summary2 c = [n; 0; 0; 0; 0] →
  (∀ name r, bfrags c !! name = Some r → r = (unknown, 0)) →
  summary (fold_left (pass2_fragment opts assembly_seq aln_con aln_ass ∅) frags c)
  = [n + Z.of_nat (length (filter (λ f, counted f = true) frags)); 0; 0; 0; 0]
  ∧ summary2 (fold_left (pass2_fragment opts assembly_seq aln_con aln_ass ∅) frags c)
  = [n + Z.of_nat (length (filter (λ f, counted f = true) frags)); 0; 0; 0; 0].
Proof.
  revert c n. induction frags as [| f frags IH]; intros c n Hs1 Hs2 Hb.
  - cbn. rewrite Z.add_0_r. auto.
  - cbn [fold_left].
    assert (E : pass2_fragment opts assembly_seq aln_con aln_ass ∅ c f
                = count_fragment f.1 tally_zero c).
    { unfold pass2_fragment. rewrite classify_empty. reflexivity. }
    rewrite E.
    destruct (count_fragment_zero f.1 f.2 c n Hs1 Hs2 Hb) as (c' & -> & H1 & H2 & Hb').
    replace (f.1, f.2) with f in H1, H2 by (destruct f; reflexivity).
    destruct (IH c' _ H1 H2 Hb') as [I1 I2]. rewrite I1, I2.
    destruct (counted f) eqn:Ec.
    + rewrite filter_cons_True by exact Ec. cbn [length].
      split; (f_equal; lia).
    + rewrite filter_cons_False by (rewrite Ec; discriminate).
      split; reflexivity.
Qed.

(** X18: when the aligned contaminant is the aligned assembly, character
    by character, no position is diagnostic: without the override the run
    stops at the safety floor, and with it, for fragments that lie in the
    assembly, the index is empty and every whole read and every pair of halves
    is counted as unclassified in both summaries, however many reads there
    are. *)
Theorem identical_references (opts : options) (contaminant_seq assembly_seq aln : string)
    (frags : list (AlnSeq * cached_pwaln)) :
  (really opts = false →
   check_file opts contaminant_seq assembly_seq (Some (aln, aln)) frags = Exit 1)
  ∧ (really opts = true →
     sanity_check_sequence contaminant_seq = true →
     sanity_check_sequence assembly_seq = true →
     Forall (span_in_assembly assembly_seq) frags →
     let n := Z.of_nat (length (filter (λ f, counted f = true) frags)) in
     check_file opts contaminant_seq assembly_seq (Some (aln, aln)) frags
     = Report ∅ [n; 0; 0; 0; 0] [n; 0; 0; 0; 0]).
Proof.
  unfold check_file. rewrite mk_dp_list_same. split.
  - intros ->. destruct (negb _ || negb _); reflexivity.
  - intros -> -> -> _. cbn [negb orb andb]. rewrite andb_false_r.
    unfold classify_all. rewrite pass1_empty, prune_empty. cbn zeta.
    rewrite <- counted_after_fixup. unfold pass2.
    destruct (pass2_empty opts assembly_seq aln aln (map fixup frags) counts_zero 0)
      as [E1 E2]; try reflexivity.
    { intros name r. cbn. rewrite lookup_empty. discriminate. }
    rewrite E1, E2. reflexivity.
Qed.

End Identical.

Lemma identical_references_witness :
  check_file default_options ex_assembly ex_assembly (Some (ex_assembly, ex_assembly))
    ex_reads = Exit 1
  ∧ check_file ex_options ex_assembly ex_assembly (Some (ex_assembly, ex_assembly))
      ex_reads = Report ∅ [2; 0; 0; 0; 0] [2; 0; 0; 0; 0].
Proof.
  assert (Hspans : Forall (span_in_assembly ex_assembly) ex_reads).
  { repeat constructor; cbn; lia. }
  split.
  - exact (proj1 (identical_references default_options ex_assembly ex_assembly
                    ex_assembly ex_reads) eq_refl).
  - exact (proj2 (identical_references ex_options ex_assembly ex_assembly
                    ex_assembly ex_reads) eq_refl eq_refl eq_refl Hspans).
Defined.

(** ** The choice of the assembly file *)

Lemma advance_empty (k : nat) : advance k EmptyString = EmptyString.
Proof. induction k as [| k IH]; [reflexivity | exact IH]. Qed.

Lemma prefix_n_advance (k : nat) (s : string) :
  (prefix_n k s ++ advance k s)%string = s.
Proof.
  revert s. induction k as [| k IH]; intros s; [reflexivity |].
  destruct s as [| c t].
  - change (advance (S k) EmptyString = EmptyString). apply advance_empty.
  - change (String c (prefix_n k t ++ advance k t) = String c t).
    rewrite IH. reflexivity.
Qed.

Lemma prefix_n_app (a b : string) : prefix_n (String.length a) (a ++ b) = a.
Proof.
  induction a as [| c a IH]; [destruct b; reflexivity |].
  change (String c (prefix_n (String.length a) (a ++ b)) = String c a).
  rewrite IH. reflexivity.
Qed.

Lemma advance_app (a b : string) : advance (String.length a) (a ++ b) = b.
Proof.
  induction a as [| c a IH]; [reflexivity |].
  change (advance (String.length a) (a ++ b) = b). exact IH.
Qed.

Lemma length_app_string (a b : string) :
  String.length (a ++ b) = (String.length a + String.length b)%nat.
Proof.
  induction a as [| c a IH]; [reflexivity |].
  change (S (String.length (a ++ b)) = S (String.length a + String.length b)).
  rewrite IH. reflexivity.
Qed.

Lemma c_str_no_nul (s : string) : NUL ∉ list_ascii_of_string (c_str s).
Proof.
  induction s as [| c t IH]; cbn [c_str]; [apply not_elem_of_nil |].
  destruct (ceq c NUL) eqn:E; [apply not_elem_of_nil |].
  cbn [list_ascii_of_string]. rewrite elem_of_cons. intros [Heq | Hin].
  - subst c. vm_compute in E. discriminate E.
  - exact (IH Hin).
Qed.

Lemma all_digits_Forall (s : string) :
  NUL ∉ list_ascii_of_string s →
  all_digits s = true ↔ Forall (λ c, isdigit c = true) (list_ascii_of_string s).
Proof.
  induction s as [| c t IH]; intros Hn; cbn [all_digits list_ascii_of_string].
  - split; [constructor | reflexivity].
  - cbn [list_ascii_of_string] in Hn. rewrite not_elem_of_cons in Hn.
    destruct Hn as [Hc Ht].
    destruct (ceq c NUL) eqn:E; [apply ceq_true in E; congruence |].
    rewrite Forall_cons, andb_true_iff, (IH Ht). reflexivity.
Qed.

Lemma decimal_from_lower (acc : Z) (s : string) : acc ≤ decimal_from acc s ∨ acc < 0.
Proof.
  revert acc. induction s as [| c t IH]; intros acc; [left; cbn; lia |].
  cbn [decimal_from]. destruct (isdigit c) eqn:Ed; [| left; lia].
  unfold isdigit in Ed. apply andb_true_iff in Ed. destruct Ed as [E1 E2].
  apply Z.leb_le in E1. apply Z.leb_le in E2.
  destruct (Z_lt_le_dec acc 0) as [Hacc | Hacc]; [right; exact Hacc |].
  destruct (IH (10 * acc + (char_code c - 48))) as [Hle | Hneg]; [left; lia | lia].
Qed.

Lemma wrap_int_small (z : Z) : - 2 ^ 31 ≤ z < 2 ^ 31 → wrap_int z = z.
Proof. intros Hz. unfold wrap_int. rewrite Z.mod_small; lia. Qed.

Lemma wrap_int_range (z : Z) : - 2 ^ 31 ≤ wrap_int z < 2 ^ 31.
Proof.
  unfold wrap_int. pose proof (Z.mod_pos_bound (z + 2 ^ 31) (2 ^ 32)). lia.
Qed.

(** X19: a directory entry carries a number behind the base name exactly
    when it is the base name followed by one digit or more and nothing else;
    the number is what [atoi] makes of those digits: always an [int], and
    their decimal value when that is at most [INT_MAX]. *)
Theorem maln_number_digits (base d_name : string) (n : Z) :
  (maln_number base (c_str d_name) = Some n ↔
   ∃ digits, c_str d_name = (base ++ digits)%string ∧ digits ≠ EmptyString ∧
             Forall (λ c, isdigit c = true) (list_ascii_of_string digits) ∧
             n = atoi digits)
  ∧ (∀ digits, - 2 ^ 31 ≤ atoi digits ≤ INT_MAX ∧
               (decimal digits ≤ INT_MAX → atoi digits = decimal digits)).
Proof.
  split; [| intros digits; unfold atoi, INT_MAX; split;
            [pose proof (wrap_int_range (Z.min (decimal digits) LONG_MAX)); lia |];
            intros Hd; unfold decimal in *;
            destruct (decimal_from_lower 0 digits) as [H0 | H0]; [| lia];
            rewrite Z.min_l by (unfold LONG_MAX; lia);
            apply wrap_int_small; lia].
  unfold maln_number. split.
  - destruct (_ <? _)%nat eqn:Elen; [| discriminate]. cbn [andb].
    destruct (String.eqb _ _) eqn:Epre; [| discriminate].
    destruct (all_digits _) eqn:Edig; [| discriminate].
    intros [= <-]. apply String.eqb_eq in Epre. apply Nat.ltb_lt in Elen.
    pose proof (prefix_n_advance (String.length base) (c_str d_name)) as Hsplit.
    rewrite <- Epre in Hsplit.
    exists (advance (String.length base) (c_str d_name)). split_and!.
    + symmetry. exact Hsplit.
    + intros E0. rewrite E0 in Hsplit. rewrite <- Hsplit in Elen.
      rewrite length_app_string in Elen. cbn in Elen. lia.
    + apply all_digits_Forall; [| exact Edig].
      pose proof (c_str_no_nul d_name) as Hn. rewrite <- Hsplit in Hn.
      rewrite chars_app in Hn. intros Hin. apply Hn, elem_of_app. right. exact Hin.
    + reflexivity.
  - intros (digits & -> & Hne & Hdig & ->).
    rewrite length_app_string, prefix_n_app, advance_app, String.eqb_refl.
    replace (String.length base <? String.length base + String.length digits)%nat
      with true.
    + cbn [andb].
      assert (Hall : all_digits digits = true).
      { clear Hne. induction digits as [| c t IH]; [reflexivity |].
        cbn [list_ascii_of_string] in Hdig. apply Forall_cons in Hdig.
        destruct Hdig as [Hc Ht]. cbn [all_digits].
        destruct (ceq c NUL); [reflexivity |]. rewrite Hc, (IH Ht). reflexivity. }
      rewrite Hall. reflexivity.
    + symmetry. apply Nat.ltb_lt. destruct digits; [contradiction | cbn; lia].
Qed.

Lemma maln_fold (p : option nat) (dir base : string) (entries : list string)
    (num : Z) (cur : string) :
  ∃ num' cur',
    fold_left (maln_step p dir base) entries (num, cur) = (num', cur') ∧
    num ≤ num' ∧
    (∀ e n, e ∈ entries → maln_number base (c_str e) = Some n → n ≤ num') ∧
    ((num' = num ∧ cur' = cur)
     ∨ ∃ e, e ∈ entries ∧ maln_number base (c_str e) = Some num' ∧ num < num' ∧
            cur' = match p with
                   | None => c_str e
                   | Some _ => (dir ++ "/" ++ c_str e)%string
                   end).
Proof.
  revert num cur. induction entries as [| e entries IH]; intros num cur.
  - exists num, cur. split_and!; [reflexivity | lia | | left; auto].
    intros e n Hin. inversion Hin.
  - cbn [fold_left]. unfold maln_step at 2. cbn [fst].
    destruct (maln_number base (c_str e)) as [n |] eqn:En.
    + destruct (num <? n) eqn:Elt.
      * apply Z.ltb_lt in Elt.
        destruct (IH n (match p with
                        | None => c_str e
                        | Some _ => (dir ++ "/" ++ c_str e)%string
                        end)) as (num' & cur' & -> & Hle & Hmax & Hsel).
        exists num', cur'. split_and!; [reflexivity | lia | |].
        -- intros e0 n0 Hin Hn0. apply elem_of_cons in Hin.
           destruct Hin as [-> | Hin]; [| eauto].
           rewrite En in Hn0. injection Hn0 as <-. exact Hle.
        -- right. destruct Hsel as [[-> ->] | (e0 & Hin & Hn0 & Hlt & ->)].
           ++ exists e. split_and!; [left | exact En | exact Elt | reflexivity].
           ++ exists e0. split_and!; [right; exact Hin | exact Hn0 | lia | reflexivity].
      * apply Z.ltb_ge in Elt.
        destruct (IH num cur) as (num' & cur' & -> & Hle & Hmax & Hsel).
        exists num', cur'. split_and!; [reflexivity | exact Hle | |].
        -- intros e0 n0 Hin Hn0. apply elem_of_cons in Hin.
           destruct Hin as [-> | Hin]; [| eauto].
           rewrite En in Hn0. injection Hn0 as <-. lia.
        -- destruct Hsel as [[-> ->] | (e0 & Hin & Hn0 & Hlt & ->)]; [left; auto |].
           right. exists e0. split_and!; [right; exact Hin | exact Hn0 | exact Hlt | reflexivity].
    + destruct (IH num cur) as (num' & cur' & -> & Hle & Hmax & Hsel).
      exists num', cur'. split_and!; [reflexivity | exact Hle | |].
      * intros e0 n0 Hin Hn0. apply elem_of_cons in Hin.
        destruct Hin as [-> | Hin]; [| eauto].
        rewrite En in Hn0. discriminate Hn0.
      * destruct Hsel as [[-> ->] | (e0 & Hin & Hn0 & Hlt & ->)]; [left; auto |].
        right. exists e0. split_and!; [right; exact Hin | exact Hn0 | exact Hlt | reflexivity].
Qed.

(** X20: when the directory can be read, [find_maln] gives back the name
    it was given if no entry carries a number above 1 behind the base name;
    otherwise it gives the path of an entry that carries the highest number of
    all, in the directory of the name it was given.  The numbers are those
    that [atoi] makes of the digits. *)
Theorem find_maln_latest (fn : string) (entries : list string) :
  (find_maln fn (Some entries) = Some fn ∧
   ∀ e n, e ∈ entries → maln_number (maln_base fn) (c_str e) = Some n → n ≤ 1)
  ∨ ∃ e n,
      e ∈ entries ∧ maln_number (maln_base fn) (c_str e) = Some n ∧ 1 < n ∧
      find_maln fn (Some entries) = Some (maln_path fn (c_str e)) ∧
      ∀ e' n', e' ∈ entries → maln_number (maln_base fn) (c_str e') = Some n' → n' ≤ n.
Proof.
  unfold find_maln, maln_path.
  change (strip_trailing_digits
            match rfind "/" fn with
            | Some k => advance (S k) fn
            | None => fn
            end) with (maln_base fn).
  destruct (maln_fold (rfind "/" fn)
              (match rfind "/" fn with None => "."%string | Some k => prefix_n k fn end)
              (maln_base fn) entries 1 fn)
    as (num' & cur' & -> & Hle & Hmax & Hsel).
  cbn [snd]. destruct Hsel as [[-> ->] | (e & Hin & Hn & Hlt & ->)].
  - left. split; [reflexivity | exact Hmax].
  - right. exists e, num'. split_and!; try assumption.
    destruct (rfind "/" fn); reflexivity.
Qed.

(** A number that is no [int] is not the highest for being long, and a
    directory that cannot be opened ends the search and the program. *)
Lemma find_maln_beyond_int :
  find_maln "x1" (Some ["."; ".."; "x3"; "x4294967298"]%string) = Some "x3"%string ∧
  find_maln "x1" None = None.
Proof. split; vm_compute; reflexivity. Qed.

Lemma rfind_none (ch : ascii) (s : string) :
  ch ∉ list_ascii_of_string s → rfind ch s = None.
Proof.
  induction s as [| c t IH]; [reflexivity |].
  cbn [list_ascii_of_string rfind]. rewrite not_elem_of_cons. intros [Hc Ht].
  rewrite (IH Ht). destruct (ceq c ch) eqn:E; [| reflexivity].
  apply ceq_true in E. congruence.
Qed.

Lemma rfind_last (ch : ascii) (dir file : string) :
  ch ∉ list_ascii_of_string file →
  rfind ch (dir ++ String ch file) = Some (String.length dir).
Proof.
  intros Hfile. induction dir as [| c dir IH].
  - change (rfind ch (String ch file) = Some O). cbn [rfind].
    rewrite (rfind_none ch file Hfile).
    replace (ceq ch ch) with true; [reflexivity |].
    symmetry. apply ceq_true. reflexivity.
  - change (rfind ch (String c (dir ++ String ch file)) = Some (S (String.length dir))).
    cbn [rfind]. rewrite IH. reflexivity.
Qed.

Lemma drop_digits_app (digits front : list ascii) :
  Forall (λ c, isdigit c = true) digits →
  drop_digits (digits ++ front) = drop_digits front.
Proof.
  induction 1 as [| c digits Hc Hd IH]; [reflexivity |].
  cbn [app drop_digits]. rewrite Hc. exact IH.
Qed.

Lemma drop_digits_stem (stem : list ascii) :
  (∀ c, last stem = Some c → isdigit c = false) →
  drop_digits (rev stem) = rev stem.
Proof.
  intros Hlast. destruct (rev stem) as [| c front] eqn:E; [reflexivity |].
  cbn [drop_digits]. rewrite Hlast; [reflexivity |].
  rewrite <- (rev_involutive stem), E. cbn [rev]. apply last_snoc.
Qed.

Lemma strip_trailing_digits_app (stem digits : string) :
  Forall (λ c, isdigit c = true) (list_ascii_of_string digits) →
  (∀ c, last (list_ascii_of_string stem) = Some c → isdigit c = false) →
  strip_trailing_digits (stem ++ digits) = stem.
Proof.
  intros Hd Hs. unfold strip_trailing_digits.
  rewrite chars_app, rev_app_distr, drop_digits_app.
  - rewrite (drop_digits_stem _ Hs), rev_involutive.
    apply string_of_list_ascii_of_string.
  - apply Forall_forall. intros c Hc. rewrite Forall_forall in Hd. apply Hd.
    apply list_elem_of_In. apply list_elem_of_In in Hc. apply in_rev. exact Hc.
Qed.

Lemma not_elem_of_chars (x : ascii) (l : list ascii) :
  forallb (cne x) l = true → x ∉ l.
Proof.
  induction l as [| c l IH]; [intros _; apply not_elem_of_nil |].
  cbn [forallb]. rewrite andb_true_iff, not_elem_of_cons. intros [Hc Hl].
  split; [apply cne_true; exact Hc | exact (IH Hl)].
Qed.

Lemma digits_no_slash (digits : string) :
  Forall (λ c, isdigit c = true) (list_ascii_of_string digits) →
  "/"%char ∉ list_ascii_of_string digits.
Proof.
  intros Hd Hin. rewrite Forall_forall in Hd. specialize (Hd _ Hin).
  vm_compute in Hd. discriminate Hd.
Qed.

(** X21: for a file name that is a stem without a slash and without a digit
    at its end, followed by digits, the base name that the directory is
    searched for is the stem, whether the name comes with a directory or
    not, and the file that is found is named in that same directory. *)
Theorem maln_base_and_path (dir stem digits name : string) :
  "/"%char ∉ list_ascii_of_string stem →
  Forall (λ c, isdigit c = true) (list_ascii_of_string digits) →
  (∀ c, last (list_ascii_of_string stem) = Some c → isdigit c = false) →
  maln_base (dir ++ "/" ++ stem ++ digits) = stem ∧
  maln_path (dir ++ "/" ++ stem ++ digits) name = (dir ++ "/" ++ name)%string ∧
  maln_base (stem ++ digits) = stem ∧
  maln_path (stem ++ digits) name = name.
Proof.
  intros Hslash Hd Hs.
  assert (Hfile : "/"%char ∉ list_ascii_of_string (stem ++ digits)).
  { rewrite chars_app, elem_of_app. intros [Hin | Hin]; [exact (Hslash Hin) |].
    exact (digits_no_slash digits Hd Hin). }
  unfold maln_base, maln_path.
  change (dir ++ "/" ++ stem ++ digits)%string
    with (dir ++ String "/" (stem ++ digits))%string.
  rewrite (rfind_last "/" dir (stem ++ digits) Hfile).
  rewrite (rfind_none "/" (stem ++ digits) Hfile).
  rewrite prefix_n_app.
  replace (advance (S (String.length dir)) (dir ++ String "/" (stem ++ digits)))
    with (stem ++ digits)%string.
  - rewrite (strip_trailing_digits_app stem digits Hd Hs). auto.
  - symmetry. change (S (String.length dir)) with (1 + String.length dir)%nat.
    replace (1 + String.length dir)%nat with (String.length (dir ++ "/")).
    + replace (dir ++ String "/" (stem ++ digits))%string
        with ((dir ++ "/") ++ (stem ++ digits))%string.
      * apply advance_app.
      * clear. induction dir as [| c dir IH]; [reflexivity |].
        change (String c ((dir ++ "/") ++ stem ++ digits)
                = String c (dir ++ String "/" (stem ++ digits))).
        rewrite IH. reflexivity.
    + rewrite length_app_string. cbn. lia.
Qed.

Lemma maln_base_and_path_witness :
  maln_base "data/run.maln.1" = "run.maln."%string ∧
  maln_path "data/run.maln.1" "run.maln.7" = "data/run.maln.7"%string ∧
  maln_base "run.maln.1" = "run.maln."%string ∧
  maln_path "run.maln.1" "run.maln.7" = "run.maln.7"%string.
Proof.
  apply (maln_base_and_path "data" "run.maln." "1" "run.maln.7").
  - apply not_elem_of_chars. reflexivity.
  - repeat constructor.
  - intros c Hc. vm_compute in Hc. injection Hc as <-. reflexivity.
Defined.

(** ** What the class of a fragment depends on *)

Lemma walk_ext_in_span {St : Type} (visit visit' : Z → ascii → ascii → St → St)
    (lo s_end : Z) :
  (∀ pos fr fa st, lo ≤ pos ≤ s_end → visit pos fr fa st = visit' pos fr fa st) →
  ∀ paln1 paln2 ass_pos in_ref in_ass in_frag_v_ass in_frag_v_ref st,
    lo ≤ ass_pos ≤ s_end + 1 →
    walk visit s_end paln1 paln2 ass_pos in_ref in_ass in_frag_v_ass in_frag_v_ref st
    = walk visit' s_end paln1 paln2 ass_pos in_ref in_ass in_frag_v_ass
        in_frag_v_ref st.
Proof.
  intros Hvisit paln1.
  induction paln1 as [| c1 t1 IH];
    intros paln2 ass_pos in_ref in_ass fva fvr st Hpos; [reflexivity |].
  destruct paln2 as [| c2 t2]; [reflexivity |]. cbn [walk].
  destruct (bool_decide (ass_pos ≠ s_end + 1)) eqn:Eend; [| reflexivity].
  apply bool_decide_eq_true in Eend. cbn [andb].
  destruct (_ && _); [| reflexivity].
  destruct (if cne c1 GAP then _ else _) as [in_ref' fvr'].
  destruct (if cne c2 GAP then _ else _) as [in_ass' fva'].
  rewrite (Hvisit ass_pos) by lia.
  apply IH. destruct (cne c2 GAP); lia.
Qed.

(** X22: the two tallies of a fragment whose span is not reversed depend
    on the entries of the index inside the span only: two indexes that agree
    there classify the fragment alike. *)
Theorem classify_local `{Ambiguity} (adna : bool) (aln_con aln_ass assembly_seq : string)
    (min_posns : Z) (l l' : dp_list) (s : AlnSeq) (pw : cached_pwaln) :
  a_start s ≤ a_end s + 1 →
  (∀ c, a_start s ≤ c ≤ a_end s → l !! c = l' !! c) →
  classify adna aln_con aln_ass assembly_seq min_posns l s pw
  = classify adna aln_con aln_ass assembly_seq min_posns l' s pw.
Proof.
  intros Hspan Hagree. unfold classify.
  assert (Hover : overlapped_diagnostic_positions l (a_start s) (a_end s)
                  = overlapped_diagnostic_positions l' (a_start s) (a_end s)).
  { unfold overlapped_diagnostic_positions. f_equal. f_equal.
    apply map_filter_strong_ext_1. intros c d. cbn. split.
    - intros [Hr Hd]. split; [exact Hr |]. rewrite <- Hagree by lia. exact Hd.
    - intros [Hr Hd]. split; [exact Hr |]. rewrite Hagree by lia. exact Hd. }
  rewrite Hover. destruct (_ <? _); [reflexivity |].
  unfold walk_fragment.
  destruct (seek_stops (a_start s) aln_con aln_ass 0) as (i & p1 & p2 & -> & Hi).
  destruct Hi as [-> | Hnone].
  - apply (walk_ext_in_span _ _ (a_start s)); [| lia].
    intros pos fr fa st Hpos. unfold pass2_visit. rewrite (Hagree pos Hpos).
    reflexivity.
  - rewrite !walk_no_columns by exact Hnone. reflexivity.
Qed.

Lemma classify_local_witness :
  classify false ex_contaminant ex_assembly ex_assembly 1 ex_index
    (fixup ex_front).1 (fixup ex_front).2
  = classify false ex_contaminant ex_assembly ex_assembly 1
      (delete 0 ex_index) (fixup ex_front).1 (fixup ex_front).2.
Proof.
  apply classify_local.
  - cbn. lia.
  - intros c Hc. cbn in Hc. symmetry. apply lookup_delete_ne. lia.
Defined.

(** ** The confidence interval *)

Section Interval.
Import PrimFloat.

Lemma clamp_lb_not_below (x : float) : (clamp_lb x <? 0)%float = false.
Proof.
  unfold clamp_lb. destruct (x <? 0)%float eqn:E; [reflexivity | exact E].
Qed.

Lemma clamp_ub_not_above (x : float) : (100 <? clamp_ub x)%float = false.
Proof.
  unfold clamp_ub. destruct (100 <? x)%float eqn:E; [reflexivity | exact E].
Qed.

(** C8, as stated, fails: with no contaminant and 11 clean fragments the
    lower bound is computed above 0, is not clamped and is reported as it is;
    with 8 contaminants and no clean fragment the upper bound is computed and
    reported below 100. *)
Lemma wilson_bounds_off_the_ends :
  (0 <? (reported 0 11).1.1)%float = true ∧
  (reported 0 11).1.1 = (wilson 0 11).1.1 ∧
  ((reported 8 0).2 <? 100)%float = true ∧
  (reported 8 0).2 = (wilson 8 0).2.
Proof. repeat split; vm_compute; reflexivity. Qed.

(** C8 (amended): in the arithmetic of doubles, with z = 1.96, the lower
    bound that is reported is never below 0 and the upper bound never above
    100.  Without contaminants the lower bound is 0 for 50 clean fragments,
    and for every number of clean fragments from 1 to 10000 it is at least 0
    and below 2^-40; with contaminants only the upper bound is 100 for 50 of
    them, and for every number from 1 to 10000 it is above 100 - 2^-40 and at
    most 100.  When there is neither a contaminant nor a clean fragment the
    table has N/A in the place of the three numbers and the narrative report
    has no interval at all; the quotient of the two zeros is computed all the
    same and is no number. *)
Theorem print_results_interval :
  (∀ dirt_count clean_count,
     ((reported dirt_count clean_count).1.1 <? 0)%float = false ∧
     (100 <? (reported dirt_count clean_count).2)%float = false)
  ∧ (reported 0 50).1.1 = 0%float
  ∧ (reported 50 0).2 = 100%float
  ∧ forallb (λ n, near_zero (reported 0 n).1.1) checked_counts = true
  ∧ forallb (λ n, near_hundred (reported n 0).2) checked_counts = true
  ∧ (∀ u x y,
       print_results [u; 0; 0; x; y] true =
       [PInt u; PText TAB; PInt 0; PText TAB; PInt 0; PText TAB; PInt x; PText TAB;
        PInt y; PText TAB; PText ("N/A" ++ TAB ++ "N/A" ++ TAB ++ "N/A" ++ TAB)])
  ∧ (∀ u x y,
       print_results [u; 0; 0; x; y] false =
       plain_line unknown u ++ plain_line clean 0 ++ plain_line dirt 0
       ++ plain_line conflict x ++ plain_line nonsense y ++ [PText NL])
  ∧ is_nan (wilson 0 0).1.2 = true.
Proof.
  split_and!.
  - intros dirt_count clean_count. unfold reported.
    destruct (wilson dirt_count clean_count) as [[lb ml] ub]. cbn [fst snd].
    split; [apply clamp_lb_not_below | apply clamp_ub_not_above].
  - vm_compute. reflexivity.
  - vm_compute. reflexivity.
  - vm_compute. reflexivity.
  - vm_compute. reflexivity.
  - intros u x y. vm_compute. reflexivity.
  - intros u x y. vm_compute. reflexivity.
  - vm_compute. reflexivity.
Qed.

End Interval.
